(** * LMMS oscillator: wave-shape routines and wavetable lookup

    Shallow embedding of the inline routines of [Oscillator.h]:
    the closed-form samplers ([sinSample] ... [expSample]), the
    band selection ([waveTableBandFromFreq], [freqFromWaveTableBand])
    and the interpolating table lookup ([wtSample]).

    Number model.  [float] and [sample_t] are modelled by the real
    numbers [R]: every arithmetic operation is exact, rounding is not
    represented.  [int] and [f_cnt_t] are modelled by [Z]; the C++
    operators [/] and [%] on them truncate towards zero and are
    [Z.quot] and [Z.rem].  Conversions and sums that leave the range
    of [int] are undefined behaviour in C++ and are not distinguished
    from the others.  The module [Binary32] embeds the arithmetic
    samplers a second time, over IEEE single precision, to evaluate
    them where the rounding matters. *)

From Stdlib Require Import Reals Lra Lia ZArith List Bool Psatz.
From Stdlib Require Import Floats.SpecFloat.
Import ListNotations.

#[local] Open Scope R_scope.

(** ** Helpers of the C++ run time and of [lmms_math.h] *)

(** [static_cast<int>(x)] on a float: the fractional part is discarded,
    the value is truncated towards zero. *)
Definition static_cast_int (x : R) : Z :=
  if Rle_dec 0 x then Zfloor x else Zceil x.

(** Modelled from the spec: [fraction] lives in [lmms_math.h], which is
    not among the sources.  It is the "fractional phase" of the spec: the
    argument minus its integer part, the integer part being the
    conversion to [int]. *)
Definition fraction (_x : R) : R :=
  _x - IZR (static_cast_int _x).

(** Modelled from the spec: [linearInterpolate] lives in
    [interpolation.h], which is not among the sources.  The spec has the
    table lookup "linearly interpolate between adjacent table samples":
    [v0] at weight [x = 0], [v1] at weight [x = 1]. *)
Definition linearInterpolate (v0 v1 x : R) : R :=
  v0 + x * (v1 - v0).

(** [F_2PI] of [lmms_constants.h]. *)
Definition F_2PI : R := 2 * PI.

Definition sinf (x : R) : R := sin x.
Definition log2f (x : R) : R := ln x / ln 2.
Definition powf (x y : R) : R := Rpower x y.
Definition ceil (x : R) : R := IZR (Zceil x).

(** ** The wave-shape routines *)

Definition sinSample (_sample : R) : R :=
  sinf (_sample * F_2PI).

Definition triangleSample (_sample : R) : R :=
  let ph := fraction _sample in
  if Rle_dec ph 0.25 then ph * 4
  else if Rle_dec ph 0.75 then 2 - ph * 4
  else ph * 4 - 4.

Definition sawSample (_sample : R) : R :=
  -1 + fraction _sample * 2.

Definition squareSample (_sample : R) : R :=
  if Rgt_dec (fraction _sample) 0.5 then -1 else 1.

Definition moogSawSample (_sample : R) : R :=
  let ph := fraction _sample in
  if Rlt_dec ph 0.5 then -1 + ph * 4
  else 1 - 2 * ph.

Definition expSample (_sample : R) : R :=
  let ph := fraction _sample in
  let ph := if Rgt_dec ph 0.5 then 1 - ph else ph in
  -1 + 8 * ph * ph.

(** ** Wavetable constants

    [OscillatorConstants.h] is not among the sources: the three
    constants the routines below read are kept as parameters.  The
    declarations that use them ([s_waveTables] is an array of
    [WAVE_TABLES_PER_WAVEFORM_COUNT] rows of [WAVETABLE_LENGTH] samples,
    [SEMITONES_PER_TABLE] is a divisor) make sense only for the values
    singled out by [constants_ok]. *)

Class OscillatorConstants : Type := {
  WAVETABLE_LENGTH : Z;
  SEMITONES_PER_TABLE : Z;
  WAVE_TABLES_PER_WAVEFORM_COUNT : Z
}.

Record constants_ok (K : OscillatorConstants) : Prop := {
  length_pos : (0 < WAVETABLE_LENGTH)%Z;
  semitones_pos : (0 < SEMITONES_PER_TABLE)%Z;
  count_two : (2 <= WAVE_TABLES_PER_WAVEFORM_COUNT)%Z
}.

(** A table of 1024 samples as in the older header, one table per
    semitone over the 128 MIDI notes. *)
Definition sample_constants : OscillatorConstants :=
  {| WAVETABLE_LENGTH := 1024;
     SEMITONES_PER_TABLE := 1;
     WAVE_TABLES_PER_WAVEFORM_COUNT := 128 |}.

(** One waveform of [s_waveTables]: rows are bands, columns are the
    samples of one period. *)
Definition wavetable : Type := list (list R).

(** Array access; an index outside the array has no value. *)
Definition at_index {A : Type} (l : list A) (i : Z) : option A :=
  if (i <? 0)%Z then None else nth_error l (Z.to_nat i).

Definition table_dims `{OscillatorConstants} (table : wavetable) : Prop :=
  Z.of_nat (length table) = WAVE_TABLES_PER_WAVEFORM_COUNT /\
  Forall (fun row => Z.of_nat (length row) = WAVETABLE_LENGTH) table.

(** A silent table of the dimensions of [sample_constants]. *)
Definition silent_table : wavetable :=
  repeat (repeat 0 1024%nat) 128%nat.

(** ** Band selection and table lookup *)

Section Wavetable.
Context {K : OscillatorConstants}.

Definition waveTableBandFromFreq (freq : R) : Z :=
  let band :=
    Z.quot (69 + static_cast_int (ceil (12 * log2f (freq / 440))))
           SEMITONES_PER_TABLE in
  if (band <=? 1)%Z then 1%Z
  else if (band >=? WAVE_TABLES_PER_WAVEFORM_COUNT - 1)%Z
       then (WAVE_TABLES_PER_WAVEFORM_COUNT - 1)%Z
       else band.

Definition freqFromWaveTableBand (band : Z) : R :=
  440 * powf 2 ((IZR (band * SEMITONES_PER_TABLE) - 69) / 12).

(** The locals [frame], [f1] and [f2] of [wtSample]. *)
Definition wtFrame (_sample : R) : R :=
  _sample * IZR WAVETABLE_LENGTH.

Definition wtF1 (_sample : R) : Z :=
  let f1 := Z.rem (static_cast_int (wtFrame _sample)) WAVETABLE_LENGTH in
  if (f1 <? 0)%Z then (f1 + WAVETABLE_LENGTH)%Z else f1.

Definition wtF2 (_sample : R) : Z :=
  let f1 := wtF1 _sample in
  if (f1 <? WAVETABLE_LENGTH - 1)%Z then (f1 + 1)%Z else 0%Z.

(** [wtSample]; [m_freq] is the oscillator's frequency member.  The
    result is [None] when one of the two array reads falls outside the
    table. *)
Definition wtSample (table : wavetable) (m_freq : R) (_sample : R)
  : option R :=
  let frame := wtFrame _sample in
  let f1 := wtF1 _sample in
  let f2 := wtF2 _sample in
  let band := waveTableBandFromFreq m_freq in
  match at_index table band with
  | None => None
  | Some row =>
      match at_index row f1, at_index row f2 with
      | Some s1, Some s2 => Some (linearInterpolate s1 s2 (fraction frame))
      | _, _ => None
      end
  end.

(** The table lookup in the words of the spec: the band comes from the
    band selector, the first index is the integer part of the fractional
    table index taken modulo the table length, the second index is the
    next one, wrapping to 0 after the last slot, and the two samples
    are mixed with the fractional part of the table index as weight. *)
Definition tableSample_spec (table : wavetable) (freq : R) (p : R)
  : option R :=
  let idx := p * IZR WAVETABLE_LENGTH in
  let i := (static_cast_int idx mod WAVETABLE_LENGTH)%Z in
  let j := ((i + 1) mod WAVETABLE_LENGTH)%Z in
  let w := fraction idx in
  match at_index table (waveTableBandFromFreq freq) with
  | None => None
  | Some row =>
      match at_index row i, at_index row j with
      | Some a, Some b => Some ((1 - w) * a + w * b)
      | _, _ => None
      end
  end.

End Wavetable.

(** ** The arithmetic samplers in IEEE single precision

    [spec_float] with a 24 bit significand and exponents up to 128 is
    the format of the C++ [float]; [SFadd], [SFsub] and [SFmul] round
    to nearest, ties to even.  A literal is given by an integer and a
    binary exponent: [lit 3 (-2)] is [0.75f]. *)

Module Binary32.

Definition prec : Z := 24.
Definition emax : Z := 128.

Definition lit (m e : Z) : spec_float :=
  binary_normalize prec emax m e false.

Definition add : spec_float -> spec_float -> spec_float := SFadd prec emax.
Definition sub : spec_float -> spec_float -> spec_float := SFsub prec emax.
Definition mul : spec_float -> spec_float -> spec_float := SFmul prec emax.

(** [static_cast<int>]: truncation towards zero.  NaN, the infinities
    and values outside the range of [int] have no defined conversion;
    they are given the x86 result, the least [int]. *)
Definition static_cast_int (x : spec_float) : Z :=
  match x with
  | S754_zero _ => 0%Z
  | S754_finite s m e =>
      let a := if (0 <=? e)%Z then (Zpos m * 2 ^ e)%Z
               else Z.quot (Zpos m) (2 ^ (- e)) in
      let a := if s then (- a)%Z else a in
      if ((- 2 ^ 31 <=? a) && (a <? 2 ^ 31))%Z then a else (- 2 ^ 31)%Z
  | _ => (- 2 ^ 31)%Z
  end.

(** Conversion of an [int] to [float]. *)
Definition of_int (z : Z) : spec_float :=
  binary_normalize prec emax z 0 false.

(** Modelled from the spec: [fraction] of [lmms_math.h], as above. *)
Definition fraction (_x : spec_float) : spec_float :=
  sub _x (of_int (static_cast_int _x)).

Definition triangleSample (_sample : spec_float) : spec_float :=
  let ph := fraction _sample in
  if SFleb ph (lit 1 (-2)) then mul ph (lit 4 0)
  else if SFleb ph (lit 3 (-2)) then sub (lit 2 0) (mul ph (lit 4 0))
  else sub (mul ph (lit 4 0)) (lit 4 0).

Definition sawSample (_sample : spec_float) : spec_float :=
  add (lit (-1) 0) (mul (fraction _sample) (lit 2 0)).

Definition squareSample (_sample : spec_float) : spec_float :=
  if SFltb (lit 1 (-1)) (fraction _sample) then lit (-1) 0 else lit 1 0.

Definition moogSawSample (_sample : spec_float) : spec_float :=
  let ph := fraction _sample in
  if SFltb ph (lit 1 (-1)) then add (lit (-1) 0) (mul ph (lit 4 0))
  else sub (lit 1 0) (mul (lit 2 0) ph).

Definition expSample (_sample : spec_float) : spec_float :=
  let ph := fraction _sample in
  let ph := if SFltb (lit 1 (-1)) ph then sub (lit 1 0) ph else ph in
  add (lit (-1) 0) (mul (mul (lit 8 0) ph) ph).

(** [-1 <= v <= 1] on floats. *)
Definition in_unit_range (v : spec_float) : bool :=
  SFleb (lit (-1) 0) v && SFleb v (lit 1 0).

(** The phases [k / 4096] for [k] from 0 to 4095. *)
Definition phase_grid : list spec_float :=
  map (fun k => lit (Z.of_nat k) (-12)) (seq 0 4096).

End Binary32.

(** ** The step recorder ([StepRecorder.cpp])

    [StepRecorder.h], [MidiTime.h] and [Note.h] are not among the
    sources.  A [MidiTime] is modelled by its tick count, an [int]
    (the arithmetic of [StepRecorder.cpp] on it is the arithmetic of
    [int]); a [Note] by the five values its constructor receives; a
    [StepNote] by its note and its pressed flag, a new one being
    pressed.  The collaborators are modelled by what the recorder
    tells them: the widget by its visibility and the three values set
    on it, the timer [m_updateReleasedTimer] by its interval when it is
    running, the pattern by the notes handed to [addNote], in order.
    Repaint requests ([update]) carry no data and are left out.  The
    clock read by [timeSinceReleased] is an argument. *)

Module StepRecorder.

#[local] Open Scope Z_scope.

Record Note : Type := mkNote {
  m_length : Z;
  m_pos : Z;
  m_key : Z;
  m_volume : Z;
  m_panning : Z
}.

Definition setLength (l : Z) (n : Note) : Note :=
  mkNote l (m_pos n) (m_key n) (m_volume n) (m_panning n).

Record StepNote : Type := mkStepNote {
  m_note : Note;
  m_pressed : bool
}.

Definition isPressed (sn : StepNote) : bool := m_pressed sn.
Definition isReleased (sn : StepNote) : bool := negb (m_pressed sn).
Definition setPressed (sn : StepNote) : StepNote := mkStepNote (m_note sn) true.
Definition setReleased (sn : StepNote) : StepNote := mkStepNote (m_note sn) false.

Record StepRecorderWidget : Type := mkWidget {
  visible : bool;
  startPosition : Z;
  endPosition : Z;
  stepsLength : Z
}.

Record t : Type := mkRecorder {
  m_isRecording : bool;
  m_isStepInProgress : bool;
  m_curStepStartPos : Z;
  m_curStepLength : Z;
  m_stepsLength : Z;
  m_curStepNotes : list StepNote;
  m_updateReleasedTimer : option Z;
  m_stepRecorderWidget : StepRecorderWidget;
  m_pattern : list Note
}.

Definition REMOVE_RELEASED_NOTE_TIME_THRESHOLD_MS : Z := 70.
Definition INT_MAX : Z := 2 ^ 31 - 1.

(** Assignments to one member. *)
Definition set_isRecording (b : bool) (s : t) : t :=
  mkRecorder b (m_isStepInProgress s) (m_curStepStartPos s)
    (m_curStepLength s) (m_stepsLength s) (m_curStepNotes s)
    (m_updateReleasedTimer s) (m_stepRecorderWidget s) (m_pattern s).

Definition set_isStepInProgress (b : bool) (s : t) : t :=
  mkRecorder (m_isRecording s) b (m_curStepStartPos s)
    (m_curStepLength s) (m_stepsLength s) (m_curStepNotes s)
    (m_updateReleasedTimer s) (m_stepRecorderWidget s) (m_pattern s).

Definition set_curStepStartPos (p : Z) (s : t) : t :=
  mkRecorder (m_isRecording s) (m_isStepInProgress s) p
    (m_curStepLength s) (m_stepsLength s) (m_curStepNotes s)
    (m_updateReleasedTimer s) (m_stepRecorderWidget s) (m_pattern s).

Definition set_curStepLength (l : Z) (s : t) : t :=
  mkRecorder (m_isRecording s) (m_isStepInProgress s) (m_curStepStartPos s)
    l (m_stepsLength s) (m_curStepNotes s)
    (m_updateReleasedTimer s) (m_stepRecorderWidget s) (m_pattern s).

Definition set_stepsLength (l : Z) (s : t) : t :=
  mkRecorder (m_isRecording s) (m_isStepInProgress s) (m_curStepStartPos s)
    (m_curStepLength s) l (m_curStepNotes s)
    (m_updateReleasedTimer s) (m_stepRecorderWidget s) (m_pattern s).

Definition set_curStepNotes (l : list StepNote) (s : t) : t :=
  mkRecorder (m_isRecording s) (m_isStepInProgress s) (m_curStepStartPos s)
    (m_curStepLength s) (m_stepsLength s) l
    (m_updateReleasedTimer s) (m_stepRecorderWidget s) (m_pattern s).

Definition set_timer (tm : option Z) (s : t) : t :=
  mkRecorder (m_isRecording s) (m_isStepInProgress s) (m_curStepStartPos s)
    (m_curStepLength s) (m_stepsLength s) (m_curStepNotes s)
    tm (m_stepRecorderWidget s) (m_pattern s).

Definition set_widget (w : StepRecorderWidget) (s : t) : t :=
  mkRecorder (m_isRecording s) (m_isStepInProgress s) (m_curStepStartPos s)
    (m_curStepLength s) (m_stepsLength s) (m_curStepNotes s)
    (m_updateReleasedTimer s) w (m_pattern s).

Definition set_pattern (p : list Note) (s : t) : t :=
  mkRecorder (m_isRecording s) (m_isStepInProgress s) (m_curStepStartPos s)
    (m_curStepLength s) (m_stepsLength s) (m_curStepNotes s)
    (m_updateReleasedTimer s) (m_stepRecorderWidget s) p.

Definition widget_show (visible' : bool) (s : t) : t :=
  let w := m_stepRecorderWidget s in
  set_widget (mkWidget visible' (startPosition w) (endPosition w)
                (stepsLength w)) s.

Definition getCurStepEndPos (s : t) : Z :=
  m_curStepStartPos s + m_curStepLength s.

Definition updateCurStepNotes (s : t) : t :=
  set_curStepNotes
    (map (fun sn => mkStepNote (setLength (m_curStepLength s) (m_note sn))
                               (m_pressed sn))
         (m_curStepNotes s)) s.

Definition updateWidget (s : t) : t :=
  set_widget (mkWidget (visible (m_stepRecorderWidget s))
                (m_curStepStartPos s) (getCurStepEndPos s) (m_stepsLength s))
             s.

Fixpoint allReleased (notes : list StepNote) : bool :=
  match notes with
  | [] => true
  | sn :: rest => if isPressed sn then false else allReleased rest
  end.

Definition allCurStepNotesReleased (s : t) : bool :=
  allReleased (m_curStepNotes s).

(** The position in [m_curStepNotes] of the step note returned by
    [findCurStepNote], [None] for [nullptr]. *)
Fixpoint findNote (key : Z) (notes : list StepNote) : option nat :=
  match notes with
  | [] => None
  | sn :: rest =>
      if m_key (m_note sn) =? key then Some O
      else option_map S (findNote key rest)
  end.

Definition findCurStepNote (key : Z) (s : t) : option nat :=
  findNote key (m_curStepNotes s).

(** A write through the pointer returned by [findCurStepNote]. *)
Fixpoint updateNote (f : StepNote -> StepNote) (i : nat)
  (notes : list StepNote) : list StepNote :=
  match notes, i with
  | [], _ => []
  | sn :: rest, O => f sn :: rest
  | sn :: rest, S j => sn :: updateNote f j rest
  end.

Definition prepareNewStep (s : t) : t :=
  let s := set_curStepNotes [] s in
  let s := set_isStepInProgress false s in
  let s := set_curStepStartPos (getCurStepEndPos s) s in
  let s := set_curStepLength 0 s in
  updateWidget s.

Definition setStepsLength (newLength : Z) (s : t) : t :=
  let s :=
    if m_isStepInProgress s
    then updateCurStepNotes
           (set_curStepLength
              (Z.quot (m_curStepLength s) (m_stepsLength s) * newLength) s)
    else s in
  updateWidget (set_stepsLength newLength s).

Definition stepForwards (s : t) : t :=
  let s :=
    if m_isStepInProgress s
    then updateCurStepNotes
           (set_curStepLength (m_curStepLength s + m_stepsLength s) s)
    else set_curStepStartPos (m_curStepStartPos s + m_stepsLength s) s in
  updateWidget s.

Definition stepBackwards (s : t) : t :=
  let s :=
    if m_isStepInProgress s
    then
      updateCurStepNotes
        (if 0 <? m_curStepLength s
         then set_curStepLength
                (Z.max (m_curStepLength s - m_stepsLength s) 0) s
         else set_curStepStartPos
                (Z.max (m_curStepStartPos s - m_stepsLength s) 0) s)
    else set_curStepStartPos
           (Z.max (m_curStepStartPos s - m_stepsLength s) 0) s in
  updateWidget s.

(** [start]; [q] is what [m_pianoRoll.quantization()] returns. *)
Definition start (q : Z) (currentPosition stepLength : Z) (s : t) : t :=
  let s := set_isRecording true s in
  let s := setStepsLength stepLength s in
  let curPosTicks := currentPosition in
  let QuantizedPosTicks := Z.quot curPosTicks q * q in
  let s := set_curStepStartPos QuantizedPosTicks s in
  let s := set_curStepLength 0 s in
  let s := widget_show true s in
  prepareNewStep s.

Definition stop (s : t) : t :=
  set_isRecording false (widget_show false s).

Definition applyStep (s : t) : t :=
  let s := set_pattern (m_pattern s ++ map m_note (m_curStepNotes s)) s in
  prepareNewStep s.

Definition dismissStep (s : t) : t :=
  if negb (m_isStepInProgress s) then s else prepareNewStep s.

Definition notePressed (n : Note) (s : t) : t :=
  let s :=
    if negb (m_isStepInProgress s)
    then stepForwards (set_isStepInProgress true s)
    else s in
  match findCurStepNote (m_key n) s with
  | None =>
      set_curStepNotes
        (m_curStepNotes s ++
         [mkStepNote (mkNote (m_stepsLength s) (m_curStepStartPos s)
                        (m_key n) (m_volume n) (m_panning n)) true]) s
  | Some i =>
      match nth_error (m_curStepNotes s) i with
      | Some sn =>
          if isReleased sn
          then set_curStepNotes (updateNote setPressed i (m_curStepNotes s)) s
          else s
      | None => s
      end
  end.

Definition noteReleased (n : Note) (s : t) : t :=
  match findCurStepNote (m_key n) s with
  | Some i =>
      match nth_error (m_curStepNotes s) i with
      | Some sn =>
          if isPressed sn then
            let s :=
              set_curStepNotes
                (updateNote setReleased i (m_curStepNotes s)) s in
            let s :=
              match m_updateReleasedTimer s with
              | None =>
                  set_timer (Some REMOVE_RELEASED_NOTE_TIME_THRESHOLD_MS) s
              | Some _ => s
              end in
            if allCurStepNotesReleased s
            then if 0 <? m_curStepLength s then applyStep s
                 else dismissStep s
            else s
          else s
      | None => s
      end
  | None => s
  end.

Inductive Key : Type := Key_Right | Key_Left | Key_other.

Definition keyPressEvent (key : Key) (isAutoRepeat : bool) (s : t)
  : bool * t :=
  match key with
  | Key_Right => (true, if negb isAutoRepeat then stepForwards s else s)
  | Key_Left => (true, if negb isAutoRepeat then stepBackwards s else s)
  | Key_other => (false, s)
  end.

Definition getCurStepNotes (s : t) : list Note :=
  if m_isStepInProgress s then map m_note (m_curStepNotes s) else [].

(** The loop of [removeNotesReleasedForTooLong]: the notes kept, the
    value of [nextTimout] and of [notesRemoved] after the loop. *)
Fixpoint sweepReleased (timeSinceReleased : StepNote -> Z)
  (notes : list StepNote) (nextTimout : Z) (notesRemoved : bool)
  : list StepNote * Z * bool :=
  match notes with
  | [] => ([], nextTimout, notesRemoved)
  | sn :: rest =>
      if isReleased sn then
        let elapsed := timeSinceReleased sn in
        if elapsed >=? REMOVE_RELEASED_NOTE_TIME_THRESHOLD_MS
        then sweepReleased timeSinceReleased rest nextTimout true
        else
          let '(kept, nt, nr) :=
            sweepReleased timeSinceReleased rest
              (Z.min nextTimout
                 (REMOVE_RELEASED_NOTE_TIME_THRESHOLD_MS - elapsed))
              notesRemoved in
          (sn :: kept, nt, nr)
      else
        let '(kept, nt, nr) :=
          sweepReleased timeSinceReleased rest nextTimout notesRemoved in
        (sn :: kept, nt, nr)
  end.

Definition removeNotesReleasedForTooLong
  (timeSinceReleased : StepNote -> Z) (s : t) : t :=
  let '(kept, nextTimout, _) :=
    sweepReleased timeSinceReleased (m_curStepNotes s) INT_MAX false in
  let s := set_curStepNotes kept s in
  if negb (nextTimout =? INT_MAX)
  then set_timer (Some nextTimout) s
  else set_timer None s.

(** The public entry points of the recorder, to speak about any
    sequence of calls. *)
Inductive call : Type :=
| Call_start (q currentPosition stepLength : Z)
| Call_stop
| Call_notePressed (n : Note)
| Call_noteReleased (n : Note)
| Call_keyPressEvent (key : Key) (isAutoRepeat : bool)
| Call_setStepsLength (newLength : Z)
| Call_removeNotesReleasedForTooLong (timeSinceReleased : StepNote -> Z).

Definition run (c : call) (s : t) : t :=
  match c with
  | Call_start q p l => start q p l s
  | Call_stop => stop s
  | Call_notePressed n => notePressed n s
  | Call_noteReleased n => noteReleased n s
  | Call_keyPressEvent k r => snd (keyPressEvent k r s)
  | Call_setStepsLength l => setStepsLength l s
  | Call_removeNotesReleasedForTooLong tsr =>
      removeNotesReleasedForTooLong tsr s
  end.

Definition run_all (cs : list call) (s : t) : t :=
  fold_left (fun s c => run c s) cs s.

(** A recorder at rest: not recording, no step in progress, the
    cursor at 0, no notes, the widget hidden, step length [l]. *)
Definition idle (l : Z) : t :=
  mkRecorder false false 0 0 l [] None (mkWidget false 0 0 l) [].

Definition note_key (sn : StepNote) : Z := m_key (m_note sn).

Definition keys (s : t) : list Z :=
  map note_key (m_curStepNotes s).

Definition widget_in_sync (s : t) : Prop :=
  startPosition (m_stepRecorderWidget s) = m_curStepStartPos s /\
  endPosition (m_stepRecorderWidget s) = getCurStepEndPos s /\
  stepsLength (m_stepRecorderWidget s) = m_stepsLength s.

(** What holds of the recorder between two calls: the notes of the
    current step have distinct keys, outside a step there are no notes
    and the current length is 0, and the widget shows the current
    step. *)
Definition consistent (s : t) : Prop :=
  NoDup (keys s) /\
  (m_isStepInProgress s = false ->
   m_curStepNotes s = [] /\ m_curStepLength s = 0) /\
  widget_in_sync s.

(** The start position and the current length are not negative and
    the step length is positive. *)
Definition positions_ok (s : t) : Prop :=
  0 <= m_curStepStartPos s /\ 0 <= m_curStepLength s /\ 0 < m_stepsLength s.

(** The end of the current step and the step length are values of
    [int]. *)
Definition fits (s : t) : Prop :=
  m_curStepStartPos s + m_curStepLength s <= INT_MAX /\
  m_stepsLength s <= INT_MAX.

(** The arguments of a call are positions and lengths held by an
    [int]: a positive quantization and step length, a position that is
    not negative.  When [start] is called inside a step, the end
    position its call of [setStepsLength] computes is a value of [int]
    as well. *)
Definition call_ok (c : call) (s : t) : Prop :=
  match c with
  | Call_start q p l =>
      0 < q <= INT_MAX /\ 0 <= p <= INT_MAX /\ 0 < l <= INT_MAX /\
      (m_isStepInProgress s = true ->
       m_curStepStartPos s
       + Z.quot (m_curStepLength s) (m_stepsLength s) * l <= INT_MAX)
  | Call_setStepsLength l => 0 < l <= INT_MAX
  | _ => True
  end.

(** A sequence of calls during which the recorder stays within [int]:
    every call has arguments that are [call_ok], and after every call
    the end of the current step and the step length are values of
    [int].  From a state that is [positions_ok], every sum and product
    the code computes on the way has operands that are not negative and
    is bounded by one of these values, and every divisor is positive:
    nothing overflows and nothing divides by zero. *)
Fixpoint run_fits (cs : list call) (s : t) : Prop :=
  match cs with
  | [] => True
  | c :: rest => call_ok c s /\ fits (run c s) /\ run_fits rest (run c s)
  end.

(** The notes that [removeNotesReleasedForTooLong] keeps. *)
Definition keptNote (timeSinceReleased : StepNote -> Z) (sn : StepNote)
  : bool :=
  isPressed sn
  || (timeSinceReleased sn <? REMOVE_RELEASED_NOTE_TIME_THRESHOLD_MS).

End StepRecorder.

(** ** The points of the vector graph ([VectorGraph.cpp])

    [VectorGraph.h] is not among the sources.  A point carries the
    members its constructor sets; [x], [y], [setX] and [setY] read and
    write [m_x] and [m_y], and a coordinate counts as locked when its
    lock or its permanent lock is set.  [floatEqual], also of the
    header, is kept as a parameter.  [m_points] is a list; an index
    outside it has no point. *)

Module VectorGraph.

Inductive TensionType : Type :=
| Hold | SingleCurve | DoubleCurve | Stairs | Pulse | Wave.

Record VectorGraphPoint : Type := mkPoint {
  m_x : R;
  m_y : R;
  m_tension : R;
  m_tensionType : TensionType;
  m_isXLocked : bool;
  m_isYLocked : bool;
  m_isXPermaLocked : bool;
  m_isYPermaLocked : bool
}.

Definition isXLocked (p : VectorGraphPoint) : bool :=
  m_isXLocked p || m_isXPermaLocked p.

Definition isYLocked (p : VectorGraphPoint) : bool :=
  m_isYLocked p || m_isYPermaLocked p.

Definition setX (x : R) (p : VectorGraphPoint) : VectorGraphPoint :=
  mkPoint x (m_y p) (m_tension p) (m_tensionType p)
    (m_isXLocked p) (m_isYLocked p) (m_isXPermaLocked p) (m_isYPermaLocked p).

Definition setY (y : R) (p : VectorGraphPoint) : VectorGraphPoint :=
  mkPoint (m_x p) y (m_tension p) (m_tensionType p)
    (m_isXLocked p) (m_isYLocked p) (m_isXPermaLocked p) (m_isYPermaLocked p).

Definition getPoint (m_points : list VectorGraphPoint) (index : Z)
  : option VectorGraphPoint :=
  at_index m_points index.

(** [m_points[index] = p], for an index inside the list. *)
Fixpoint setPoint (index : nat) (p : VectorGraphPoint)
  (m_points : list VectorGraphPoint) : list VectorGraphPoint :=
  match m_points, index with
  | [], _ => []
  | _ :: rest, O => p :: rest
  | q :: rest, S i => q :: setPoint i p rest
  end.

Section SectionStart.
Variable floatEqual : R -> R -> R -> bool.

(** What stops the loop of [getSectionStartIndex] at a point. *)
Definition stops (input : R) (p : VectorGraphPoint) : Prop :=
  input < m_x p \/ floatEqual (m_x p) input 0.000001 = true.

(** The loop of [getSectionStartIndex], entered at index [i]. *)
Fixpoint scanSections (points : list VectorGraphPoint) (i : Z) (input : R)
  : Z :=
  match points with
  | [] => (-1)%Z
  | p :: rest =>
      if (if Rgt_dec (m_x p) input then true else false)
         || floatEqual (m_x p) input 0.000001
      then (i - 1)%Z
      else scanSections rest (i + 1)%Z input
  end.

Definition getSectionStartIndex (m_points : list VectorGraphPoint)
  (input : R) : Z :=
  match m_points with
  | [] => (-1)%Z
  | [_] => 0%Z
  | _ :: rest => scanSections rest 1%Z input
  end.

End SectionStart.

(** [tryMove]; [None] when it reads a point outside [m_points]. *)
Definition tryMove (index : Z) (x y : R) (m_points : list VectorGraphPoint)
  : option (list VectorGraphPoint) :=
  match getPoint m_points index with
  | None => None
  | Some currentPoint =>
      let moved_x :=
        if negb (isXLocked currentPoint) then
          let checkRight :=
            negb (index + 1 =? Z.of_nat (length m_points))%Z in
          match getPoint m_points (index - 1) with
          | None => None
          | Some leftPoint =>
              let rightPoint :=
                if checkRight
                then option_map Some (getPoint m_points (index + 1))
                else Some None in
              match rightPoint with
              | None => None
              | Some rightPoint =>
                  if Rlt_dec x (m_x leftPoint)
                  then Some (setX (m_x leftPoint) currentPoint)
                  else
                    match rightPoint with
                    | Some rightPoint =>
                        if Rgt_dec x (m_x rightPoint)
                        then Some (setX (m_x rightPoint) currentPoint)
                        else Some (setX x currentPoint)
                    | None => Some (setX x currentPoint)
                    end
              end
          end
        else Some currentPoint in
      match moved_x with
      | None => None
      | Some currentPoint =>
          let currentPoint :=
            if negb (isYLocked currentPoint) then
              if Rgt_dec y 1 then setY 1 currentPoint
              else if Rlt_dec y 0 then setY 0 currentPoint
              else setY y currentPoint
            else currentPoint in
          Some (setPoint (Z.to_nat index) currentPoint m_points)
      end
  end.

(** The points are in the order of their [x]. *)
Definition ordered (m_points : list VectorGraphPoint) : Prop :=
  forall (i : nat) (p q : VectorGraphPoint),
    nth_error m_points i = Some p ->
    nth_error m_points (S i) = Some q ->
    m_x p <= m_x q.

(** The graph the model's constructor builds, with one more point in
    the middle. *)
Definition three_points : list VectorGraphPoint :=
  [mkPoint 0 0 0 SingleCurve false false true true;
   mkPoint 0.5 0.5 0 SingleCurve false false false false;
   mkPoint 1 1 0 SingleCurve false false true false].

(** A [floatEqual] that compares the distance with the tolerance. *)
Definition floatEqual_abs (a b epsilon : R) : bool :=
  if Rlt_dec (Rabs (a - b)) epsilon then true else false.

End VectorGraph.

(** ** The logo of a plugin entry ([PluginDescWidget::paintEvent])

    [tLimit] of [templates.h] is not among the sources; it limits its
    first argument to the range between the other two. *)

Definition tLimit (x x1 x2 : Z) : Z := Z.max x1 (Z.min x x2).

(** The side [s] of the logo for a widget of the given height. *)
Definition logo_side (height : Z) : Z :=
  (16 + Z.quot (32 * (tLimit height 24 60 - 24)) (60 - 24))%Z.

(** * Properties *)

#[local] Open Scope Z_scope.
#[local] Open Scope R_scope.

(** ** Conversion to [int] and [fraction] *)

Lemma static_cast_int_nonneg (x : R) :
  0 <= x -> static_cast_int x = Zfloor x.
Proof.
  intros Hx. unfold static_cast_int.
  destruct (Rle_dec 0 x); [reflexivity | contradiction].
Qed.

Lemma static_cast_int_neg (x : R) :
  x < 0 -> static_cast_int x = Zceil x.
Proof.
  intros Hx. unfold static_cast_int.
  destruct (Rle_dec 0 x); [lra | reflexivity].
Qed.

Lemma static_cast_int_IZR (z : Z) : static_cast_int (IZR z) = z.
Proof.
  unfold static_cast_int.
  destruct (Rle_dec 0 (IZR z)).
  - apply ZfloorZ.
  - apply Zceil_eq. lra.
Qed.

Lemma fraction_nonneg (x : R) : 0 <= x -> 0 <= fraction x < 1.
Proof.
  intros Hx. unfold fraction. rewrite static_cast_int_nonneg by assumption.
  pose proof (Zfloor_bound x). lra.
Qed.

Lemma fraction_unit (p : R) : 0 <= p < 1 -> fraction p = p.
Proof.
  intros Hp. unfold fraction.
  rewrite static_cast_int_nonneg by lra.
  rewrite (Zfloor_eq 0) by lra. lra.
Qed.

Lemma static_cast_int_ceil (x : R) : static_cast_int (ceil x) = Zceil x.
Proof. apply static_cast_int_IZR. Qed.

Lemma fraction_IZR (z : Z) : fraction (IZR z) = 0.
Proof. unfold fraction. rewrite static_cast_int_IZR. lra. Qed.

Lemma fraction_one : fraction 1 = 0.
Proof. exact (fraction_IZR 1). Qed.

(** ** The closed-form samplers *)

(** Splits on every comparison the samplers make. *)
Ltac split_cmp :=
  repeat match goal with
  | |- context [Rle_dec ?a ?b] => destruct (Rle_dec a b)
  | |- context [Rlt_dec ?a ?b] => destruct (Rlt_dec a b)
  | |- context [Rgt_dec ?a ?b] => destruct (Rgt_dec a b)
  end.

(** Each sampler only looks at the fractional phase; these are the
    source's case distinctions with the phase named. *)
Lemma triangleSample_cases (x : R) :
  let ph := fraction x in
  (ph <= 0.25 -> triangleSample x = ph * 4) /\
  (0.25 < ph <= 0.75 -> triangleSample x = 2 - ph * 4) /\
  (0.75 < ph -> triangleSample x = ph * 4 - 4).
Proof. unfold triangleSample; cbv zeta; repeat split; intros; split_cmp; lra. Qed.

Lemma squareSample_cases (x : R) :
  (fraction x <= 0.5 -> squareSample x = 1) /\
  (0.5 < fraction x -> squareSample x = -1).
Proof. unfold squareSample; split; intros; split_cmp; lra. Qed.

Lemma moogSawSample_cases (x : R) :
  let ph := fraction x in
  (ph < 0.5 -> moogSawSample x = -1 + ph * 4) /\
  (0.5 <= ph -> moogSawSample x = 1 - 2 * ph).
Proof. unfold moogSawSample; cbv zeta; split; intros; split_cmp; lra. Qed.

Lemma expSample_cases (x : R) :
  let ph := fraction x in
  (ph <= 0.5 -> expSample x = -1 + 8 * ph * ph) /\
  (0.5 < ph -> expSample x = -1 + 8 * (1 - ph) * (1 - ph)).
Proof. unfold expSample; cbv zeta; split; intros; split_cmp; lra. Qed.

(** The range of a sampler follows from the range of the fractional
    phase alone. *)
Lemma triangleSample_range (x : R) :
  0 <= fraction x < 1 -> -1 <= triangleSample x <= 1.
Proof. intros Hph. unfold triangleSample; cbv zeta; split_cmp; lra. Qed.

Lemma sawSample_range (x : R) :
  0 <= fraction x < 1 -> -1 <= sawSample x < 1.
Proof. intros Hph. unfold sawSample. lra. Qed.

Lemma squareSample_values (x : R) :
  squareSample x = 1 \/ squareSample x = -1.
Proof. unfold squareSample; split_cmp; lra. Qed.

Lemma moogSawSample_range (x : R) :
  0 <= fraction x < 1 -> -1 <= moogSawSample x < 1.
Proof. intros Hph. unfold moogSawSample; cbv zeta; split_cmp; lra. Qed.

Lemma expSample_range (x : R) :
  0 <= fraction x < 1 -> -1 <= expSample x <= 1.
Proof. intros Hph. unfold expSample; cbv zeta; split_cmp; nra. Qed.

Lemma sinSample_range (x : R) : -1 <= sinSample x <= 1.
Proof. unfold sinSample, sinf. apply SIN_bound. Qed.

(** C1, as the code has it.  [squareSample] returns exactly 1 for every
    x whose fractional part lies in the closed interval from 0 to 0.5
    and exactly -1 for every x whose fractional part lies strictly
    between 0.5 and 1; in particular it returns 1 at 0.5.  The
    comparison is a strict [>], so the midpoint belongs to the high
    half. *)
Theorem squareSample_halves :
  (forall x : R, 0 <= fraction x <= 0.5 -> squareSample x = 1) /\
  (forall x : R, 0.5 < fraction x < 1 -> squareSample x = -1) /\
  squareSample 0.5 = 1.
Proof.
  split; [| split].
  - intros x Hph. apply (proj1 (squareSample_cases x)). lra.
  - intros x Hph. apply (proj2 (squareSample_cases x)). lra.
  - apply (proj1 (squareSample_cases 0.5)).
    rewrite fraction_unit; lra.
Qed.

Lemma squareSample_halves_witness :
  (0 <= fraction 0.25 <= 0.5 /\ squareSample 0.25 = 1) /\
  (0.5 < fraction 0.75 < 1 /\ squareSample 0.75 = -1).
Proof.
  assert (H1 : 0 <= fraction 0.25 <= 0.5) by (rewrite fraction_unit; lra).
  assert (H2 : 0.5 < fraction 0.75 < 1) by (rewrite fraction_unit; lra).
  split; split; try assumption.
  - exact (proj1 squareSample_halves 0.25 H1).
  - exact (proj1 (proj2 squareSample_halves) 0.75 H2).
Defined.

(** C1, counterexample.  0.5 has fractional part 0.5, which lies in the
    half-open interval from 0.5 to 1, and [squareSample] returns 1
    there, not -1. *)
Lemma squareSample_midpoint_high :
  0.5 <= fraction 0.5 < 1 /\ squareSample 0.5 = 1 /\ squareSample 0.5 <> -1.
Proof.
  assert (Hf : fraction 0.5 = 0.5) by (apply fraction_unit; lra).
  assert (Hs : squareSample 0.5 = 1)
    by (apply (proj1 (squareSample_cases 0.5)); lra).
  rewrite Hf, Hs. repeat split; lra.
Qed.

(** C4.  For every phase fraction p with 0 <= p < 1, each of the six
    closed-form samplers returns a value between -1 and 1. *)
Theorem samplers_in_unit_range (p : R) :
  0 <= p < 1 ->
  -1 <= sinSample p <= 1 /\
  -1 <= triangleSample p <= 1 /\
  -1 <= sawSample p <= 1 /\
  -1 <= squareSample p <= 1 /\
  -1 <= moogSawSample p <= 1 /\
  -1 <= expSample p <= 1.
Proof.
  intros Hp.
  assert (Hph : 0 <= fraction p < 1) by (rewrite fraction_unit; lra).
  pose proof (sinSample_range p).
  pose proof (triangleSample_range p Hph).
  pose proof (sawSample_range p Hph).
  pose proof (moogSawSample_range p Hph).
  pose proof (expSample_range p Hph).
  destruct (squareSample_values p) as [Hs | Hs]; rewrite Hs.
  all: repeat split; lra.
Qed.

Lemma samplers_in_unit_range_witness :
  -1 <= sinSample 0.3 <= 1 /\
  -1 <= triangleSample 0.3 <= 1 /\
  -1 <= sawSample 0.3 <= 1 /\
  -1 <= squareSample 0.3 <= 1 /\
  -1 <= moogSawSample 0.3 <= 1 /\
  -1 <= expSample 0.3 <= 1.
Proof. apply (samplers_in_unit_range 0.3). lra. Defined.

(** C5.  [triangleSample] is exactly 0 at 0, 1 at 0.25, 0 at 0.5 and
    -1 at 0.75. *)
Theorem triangleSample_breakpoints :
  triangleSample 0 = 0 /\
  triangleSample 0.25 = 1 /\
  triangleSample 0.5 = 0 /\
  triangleSample 0.75 = -1.
Proof.
  unfold triangleSample; cbv zeta.
  rewrite !fraction_unit by lra.
  repeat split; split_cmp; lra.
Qed.

(** C6.  [sinSample p] is the sine of 2 pi p; it is 0 at 0, 1 at 0.25,
    0 at 0.5 and -1 at 0.75 (exactly so in real arithmetic, hence
    within any tolerance). *)
Theorem sinSample_reference_values :
  (forall p : R, sinSample p = sin (2 * PI * p)) /\
  sinSample 0 = 0 /\
  sinSample 0.25 = 1 /\
  sinSample 0.5 = 0 /\
  sinSample 0.75 = -1.
Proof.
  unfold sinSample, sinf, F_2PI. repeat split.
  - intros p. f_equal. lra.
  - rewrite Rmult_0_l. apply sin_0.
  - replace (0.25 * (2 * PI)) with (PI / 2) by lra. apply sin_PI2.
  - replace (0.5 * (2 * PI)) with PI by lra. apply sin_PI.
  - replace (0.75 * (2 * PI)) with (3 * (PI / 2)) by lra. apply sin_3PI2.
Qed.

(** C10, as the code has it.  [expSample] is symmetric about the half
    cycle on pairs of phases that are each other's reflection: for all
    p and q between 0 and 1 with p + q = 1, [expSample p] equals
    [expSample q].  The reflected phase is an argument, not the result
    of a subtraction made before the call. *)
Theorem expSample_symmetric (p q : R) :
  0 <= p <= 1 -> p + q = 1 -> expSample p = expSample q.
Proof.
  intros Hp Hq.
  assert (Hend : expSample 0 = expSample 1).
  { unfold expSample; cbv zeta.
    rewrite fraction_one, (fraction_unit 0) by lra. reflexivity. }
  destruct (Req_dec p 0) as [-> | Hp0].
  { replace q with 1 by lra. exact Hend. }
  destruct (Req_dec p 1) as [-> | Hp1].
  { replace q with 0 by lra. symmetry. exact Hend. }
  unfold expSample; cbv zeta.
  rewrite (fraction_unit p), (fraction_unit q) by lra.
  split_cmp; nra.
Qed.

Lemma expSample_symmetric_witness :
  expSample 0.25 = expSample 0.75.
Proof. apply (expSample_symmetric 0.25 0.75); lra. Defined.

(** C10, counterexample.  In single precision the difference
    1.0f - 0.2f is rounded, and [expSample] at 0.2f and at that
    difference are two different floats. *)
Lemma expSample_rounded_reflection_differs :
  let p := Binary32.lit 13421773 (-26) in
  SFleb (Binary32.lit 0 0) p = true /\
  SFleb p (Binary32.lit 1 0) = true /\
  SFeqb (Binary32.expSample p)
        (Binary32.expSample (Binary32.sub (Binary32.lit 1 0) p)) = false.
Proof. repeat split; vm_compute; reflexivity. Qed.

(** ** Band selection *)

Section BandSelector.
Context {K : OscillatorConstants}.
Hypothesis Kok : constants_ok K.

(** The final clamp, whatever integer the logarithm produced. *)
Lemma waveTableBandFromFreq_range (freq : R) :
  (1 <= waveTableBandFromFreq freq <= WAVE_TABLES_PER_WAVEFORM_COUNT - 1)%Z.
Proof.
  destruct Kok as [_ _ Hcount].
  unfold waveTableBandFromFreq; cbv zeta.
  set (band := Z.quot _ _).
  destruct (Z.leb_spec band 1); [lia |].
  destruct (Z.geb_spec band (WAVE_TABLES_PER_WAVEFORM_COUNT - 1)); lia.
Qed.

(** The clamp as a function of the unclamped band. *)
Lemma clamp_mono (a b : Z) :
  (a <= b)%Z ->
  ((if (a <=? 1)%Z then 1
    else if (a >=? WAVE_TABLES_PER_WAVEFORM_COUNT - 1)%Z
         then WAVE_TABLES_PER_WAVEFORM_COUNT - 1 else a)
   <=
   (if (b <=? 1)%Z then 1
    else if (b >=? WAVE_TABLES_PER_WAVEFORM_COUNT - 1)%Z
         then WAVE_TABLES_PER_WAVEFORM_COUNT - 1 else b))%Z.
Proof.
  destruct Kok as [_ _ Hcount]. intros Hab.
  destruct (Z.leb_spec a 1), (Z.leb_spec b 1);
    destruct (Z.geb_spec a (WAVE_TABLES_PER_WAVEFORM_COUNT - 1));
    destruct (Z.geb_spec b (WAVE_TABLES_PER_WAVEFORM_COUNT - 1)); lia.
Qed.

End BandSelector.

Lemma ln_2_pos : 0 < ln 2.
Proof. rewrite <- ln_1. apply ln_increasing; lra. Qed.

Lemma log2f_mono (x y : R) : 0 < x <= y -> log2f x <= log2f y.
Proof.
  intros [Hx [Hlt | ->]]; [| lra].
  unfold log2f. pose proof ln_2_pos as H2.
  pose proof (ln_increasing x y Hx Hlt) as Hln.
  apply Rmult_le_compat_r; [| lra].
  left. apply Rinv_0_lt_compat. exact H2.
Qed.

Lemma log2f_powf (y : R) : log2f (powf 2 y) = y.
Proof.
  unfold log2f, powf, Rpower. rewrite ln_exp.
  pose proof ln_2_pos. field. lra.
Qed.

Lemma powf_pos (x y : R) : 0 < powf x y.
Proof. unfold powf, Rpower. apply exp_pos. Qed.

(** C3.  For every positive frequency the band returned by
    [waveTableBandFromFreq] lies between 1 and the last band,
    WAVE_TABLES_PER_WAVEFORM_COUNT - 1: it is never 0 or negative and
    never beyond the last band. *)
Theorem waveTableBandFromFreq_clamped (K : OscillatorConstants) (freq : R) :
  constants_ok K ->
  0 < freq ->
  (1 <= waveTableBandFromFreq freq <= WAVE_TABLES_PER_WAVEFORM_COUNT - 1)%Z.
Proof. intros Kok _. apply waveTableBandFromFreq_range. exact Kok. Qed.

Lemma sample_constants_ok : constants_ok sample_constants.
Proof. split; simpl; lia. Qed.

Lemma waveTableBandFromFreq_clamped_witness :
  (1 <= waveTableBandFromFreq (K := sample_constants) 440 <= 127)%Z.
Proof.
  apply (waveTableBandFromFreq_clamped sample_constants 440).
  - exact sample_constants_ok.
  - lra.
Defined.

(** C9.  [waveTableBandFromFreq] is monotone on positive frequencies:
    0 < f1 <= f2 gives band(f1) <= band(f2). *)
Theorem waveTableBandFromFreq_monotone
  (K : OscillatorConstants) (f1 f2 : R) :
  constants_ok K ->
  0 < f1 <= f2 ->
  (waveTableBandFromFreq f1 <= waveTableBandFromFreq f2)%Z.
Proof.
  intros Kok Hf.
  unfold waveTableBandFromFreq; cbv zeta.
  apply (clamp_mono Kok).
  apply Z.quot_le_mono; [apply Kok |].
  apply Z.add_le_mono_l. rewrite !static_cast_int_ceil. apply Zceil_le.
  apply Rmult_le_compat_l; [lra |].
  apply log2f_mono. lra.
Qed.

Lemma waveTableBandFromFreq_monotone_witness :
  (waveTableBandFromFreq (K := sample_constants) 220
   <= waveTableBandFromFreq (K := sample_constants) 880)%Z.
Proof.
  apply (waveTableBandFromFreq_monotone sample_constants 220 880).
  - exact sample_constants_ok.
  - lra.
Defined.

(** The band of a frequency that sits exactly on a band boundary. *)
Lemma band_of_freqFromWaveTableBand (K : OscillatorConstants) (b : Z) :
  constants_ok K ->
  (1 <= b <= WAVE_TABLES_PER_WAVEFORM_COUNT - 1)%Z ->
  waveTableBandFromFreq (freqFromWaveTableBand b) = b.
Proof.
  intros Kok Hb.
  assert (Hs : (0 < SEMITONES_PER_TABLE)%Z) by apply Kok.
  unfold waveTableBandFromFreq, freqFromWaveTableBand; cbv zeta.
  replace (440 * powf 2 ((IZR (b * SEMITONES_PER_TABLE) - 69) / 12) / 440)
    with (powf 2 ((IZR (b * SEMITONES_PER_TABLE) - 69) / 12)) by (field; lra).
  rewrite log2f_powf.
  replace (12 * ((IZR (b * SEMITONES_PER_TABLE) - 69) / 12))
    with (IZR (b * SEMITONES_PER_TABLE - 69))
    by (rewrite minus_IZR; field).
  rewrite static_cast_int_ceil.
  rewrite (Zceil_eq (b * SEMITONES_PER_TABLE - 69)) by lra.
  replace (69 + (b * SEMITONES_PER_TABLE - 69))%Z
    with (b * SEMITONES_PER_TABLE)%Z by lia.
  rewrite Z.quot_mul by lia.
  destruct (Z.leb_spec b 1); [lia |].
  destruct (Z.geb_spec b (WAVE_TABLES_PER_WAVEFORM_COUNT - 1)); lia.
Qed.

(** C2.  For every band b from 1 to the last band, the band of
    [freqFromWaveTableBand b] differs from b by at most one. *)
Theorem band_roundtrip_within_one (K : OscillatorConstants) (b : Z) :
  constants_ok K ->
  (1 <= b <= WAVE_TABLES_PER_WAVEFORM_COUNT - 1)%Z ->
  (Z.abs (waveTableBandFromFreq (freqFromWaveTableBand b) - b) <= 1)%Z.
Proof.
  intros Kok Hb. rewrite band_of_freqFromWaveTableBand by assumption. lia.
Qed.

Lemma band_roundtrip_within_one_witness :
  (Z.abs (waveTableBandFromFreq (K := sample_constants)
            (freqFromWaveTableBand (K := sample_constants) 60) - 60) <= 1)%Z.
Proof.
  apply (band_roundtrip_within_one sample_constants 60).
  - exact sample_constants_ok.
  - simpl. lia.
Defined.

(** The round trip tolerates any error below one semitone in the
    computed logarithm, which is what a rounded [powf] and [log2f]
    can introduce: the band is still b or b + 1. *)
Lemma band_near_boundary (K : OscillatorConstants) (b : Z) (freq : R) :
  constants_ok K ->
  (1 <= b <= WAVE_TABLES_PER_WAVEFORM_COUNT - 1)%Z ->
  Rabs (12 * log2f (freq / 440) - IZR (b * SEMITONES_PER_TABLE - 69)) < 1 ->
  (b <= waveTableBandFromFreq freq <= b + 1)%Z.
Proof.
  intros Kok Hb Herr.
  assert (Hs : (0 < SEMITONES_PER_TABLE)%Z) by apply Kok.
  unfold waveTableBandFromFreq; cbv zeta.
  set (y := 12 * log2f (freq / 440)) in *.
  set (k := (b * SEMITONES_PER_TABLE - 69)%Z) in *.
  apply Rabs_def2 in Herr.
  rewrite static_cast_int_ceil.
  assert (Hc : Zceil y = k \/ Zceil y = (k + 1)%Z).
  { destruct (Rle_dec y (IZR k)).
    - left. apply Zceil_eq. lra.
    - right. apply Zceil_eq. rewrite plus_IZR. lra. }
  assert (Hq : (Z.quot (69 + Zceil y) SEMITONES_PER_TABLE = b \/
                Z.quot (69 + Zceil y) SEMITONES_PER_TABLE = b + 1)%Z).
  { destruct Hc as [-> | ->]; subst k.
    - left. replace (69 + (b * SEMITONES_PER_TABLE - 69))%Z
        with (b * SEMITONES_PER_TABLE)%Z by lia.
      apply Z.quot_mul. lia.
    - assert (Hq1 : (0 <= Z.quot 1 SEMITONES_PER_TABLE <= 1)%Z).
      { split; [apply Z.quot_pos; lia |].
        transitivity (Z.quot 1 1); [apply Z.quot_le_compat_l; lia |].
        rewrite Z.quot_1_r. lia. }
      replace (69 + (b * SEMITONES_PER_TABLE - 69 + 1))%Z
        with (1 + b * SEMITONES_PER_TABLE)%Z by lia.
      rewrite Z.quot_add by nia. lia. }
  destruct (Z.leb_spec (Z.quot (69 + Zceil y) SEMITONES_PER_TABLE) 1);
    [lia |].
  destruct (Z.geb_spec (Z.quot (69 + Zceil y) SEMITONES_PER_TABLE)
                       (WAVE_TABLES_PER_WAVEFORM_COUNT - 1)); lia.
Qed.

(** ** Table lookup *)

Lemma at_index_in_bounds {A : Type} (l : list A) (i : Z) :
  (0 <= i < Z.of_nat (length l))%Z -> exists a, at_index l i = Some a.
Proof.
  intros Hi. unfold at_index.
  destruct (Z.ltb_spec i 0); [lia |].
  destruct (nth_error l (Z.to_nat i)) as [a |] eqn:Hnth.
  - exists a. reflexivity.
  - apply nth_error_None in Hnth. lia.
Qed.

Lemma at_index_out_of_bounds {A : Type} (l : list A) (i : Z) :
  (i < 0 \/ Z.of_nat (length l) <= i)%Z -> at_index l i = None.
Proof.
  intros Hi. unfold at_index.
  destruct (Z.ltb_spec i 0); [reflexivity |].
  apply nth_error_None. lia.
Qed.

Lemma at_index_In {A : Type} (l : list A) (i : Z) (a : A) :
  at_index l i = Some a -> In a l.
Proof.
  unfold at_index. destruct (i <? 0)%Z; [discriminate |].
  apply nth_error_In.
Qed.

Lemma linearInterpolate_weights (v0 v1 x : R) :
  linearInterpolate v0 v1 x = (1 - x) * v0 + x * v1.
Proof. unfold linearInterpolate. ring. Qed.

Section TableLookup.
Context {K : OscillatorConstants}.
Hypothesis Kok : constants_ok K.

(** The truncated remainder with the correction for a negative value is
    the remainder of the floored division, for every integer the
    conversion may produce. *)
Lemma wrapped_rem_modulo (a : Z) :
  (if (Z.rem a WAVETABLE_LENGTH <? 0)%Z
   then (Z.rem a WAVETABLE_LENGTH + WAVETABLE_LENGTH)%Z
   else Z.rem a WAVETABLE_LENGTH)
  = (a mod WAVETABLE_LENGTH)%Z.
Proof.
  destruct Kok as [Hlen _ _].
  pose proof (Z.quot_rem' a WAVETABLE_LENGTH) as Hqr.
  destruct (Z.ltb_spec (Z.rem a WAVETABLE_LENGTH) 0) as [Hneg | Hpos].
  - assert (Ha : (a <= 0)%Z).
    { destruct (Z.le_gt_cases a 0) as [|Hgt]; [assumption |].
      pose proof (Z.rem_bound_pos a WAVETABLE_LENGTH). lia. }
    pose proof (Z.rem_bound_pos_neg a WAVETABLE_LENGTH Hlen Ha).
    apply (Z.mod_unique_pos a WAVETABLE_LENGTH
             (Z.quot a WAVETABLE_LENGTH - 1)); lia.
  - assert (Hb : (Z.rem a WAVETABLE_LENGTH < WAVETABLE_LENGTH)%Z).
    { pose proof (Z.rem_bound_abs a WAVETABLE_LENGTH). lia. }
    apply (Z.mod_unique_pos a WAVETABLE_LENGTH (Z.quot a WAVETABLE_LENGTH));
      lia.
Qed.

Lemma wtF1_modulo (p : R) :
  wtF1 p = (static_cast_int (wtFrame p) mod WAVETABLE_LENGTH)%Z.
Proof. unfold wtF1; cbv zeta. apply wrapped_rem_modulo. Qed.

Lemma wtF1_range (p : R) : (0 <= wtF1 p <= WAVETABLE_LENGTH - 1)%Z.
Proof.
  rewrite wtF1_modulo.
  pose proof (Z.mod_pos_bound (static_cast_int (wtFrame p)) WAVETABLE_LENGTH
                (length_pos K Kok)). lia.
Qed.

Lemma wtF2_next (p : R) :
  wtF2 p = if (wtF1 p =? WAVETABLE_LENGTH - 1)%Z then 0%Z
           else (wtF1 p + 1)%Z.
Proof.
  pose proof (wtF1_range p). unfold wtF2; cbv zeta.
  destruct (Z.ltb_spec (wtF1 p) (WAVETABLE_LENGTH - 1)),
           (Z.eqb_spec (wtF1 p) (WAVETABLE_LENGTH - 1)); lia.
Qed.

Lemma wtF2_modulo (p : R) :
  wtF2 p = ((wtF1 p + 1) mod WAVETABLE_LENGTH)%Z.
Proof.
  pose proof (wtF1_range p). rewrite wtF2_next.
  destruct (Z.eqb_spec (wtF1 p) (WAVETABLE_LENGTH - 1)) as [-> | Hne].
  - replace (WAVETABLE_LENGTH - 1 + 1)%Z with WAVETABLE_LENGTH by lia.
    symmetry. apply Z_mod_same_full.
  - symmetry. apply Z.mod_small. lia.
Qed.

Lemma wtF2_range (p : R) : (0 <= wtF2 p <= WAVETABLE_LENGTH - 1)%Z.
Proof.
  pose proof (wtF1_range p). rewrite wtF2_next.
  destruct (Z.eqb_spec (wtF1 p) (WAVETABLE_LENGTH - 1)); lia.
Qed.

(** Inside one period the first index is the integer part of the
    fractional table index. *)
Lemma wtF1_unit (p : R) :
  0 <= p < 1 -> wtF1 p = Zfloor (p * IZR WAVETABLE_LENGTH).
Proof.
  intros Hp. destruct Kok as [Hlen _ _].
  assert (HL : 0 < IZR WAVETABLE_LENGTH) by (apply IZR_lt; assumption).
  assert (Hfr : 0 <= p * IZR WAVETABLE_LENGTH < IZR WAVETABLE_LENGTH) by nra.
  rewrite wtF1_modulo. unfold wtFrame.
  rewrite static_cast_int_nonneg by lra.
  pose proof (Zfloor_bound (p * IZR WAVETABLE_LENGTH)) as Hfl.
  apply Z.mod_small. split.
  - apply Zfloor_lub. lra.
  - apply lt_IZR. lra.
Qed.

End TableLookup.

Lemma silent_table_dims : table_dims (H := sample_constants) silent_table.
Proof.
  unfold table_dims, silent_table. split.
  - rewrite repeat_length. reflexivity.
  - apply Forall_forall. intros row Hrow.
    apply repeat_spec in Hrow. subst row.
    rewrite repeat_length. reflexivity.
Qed.

(** Both reads of [wtSample] hit the table, and the value returned is
    the interpolation of the two samples read. *)
Lemma wtSample_reads (K : OscillatorConstants)
  (table : wavetable) (m_freq p : R) :
  constants_ok K ->
  table_dims table ->
  exists row s1 s2,
    at_index table (waveTableBandFromFreq m_freq) = Some row /\
    at_index row (wtF1 p) = Some s1 /\
    at_index row (wtF2 p) = Some s2 /\
    wtSample table m_freq p
    = Some (linearInterpolate s1 s2 (fraction (wtFrame p))).
Proof.
  intros Kok [Hrows Hcols].
  pose proof (waveTableBandFromFreq_range Kok m_freq) as Hband.
  pose proof (wtF1_range Kok p) as Hf1.
  pose proof (wtF2_range Kok p) as Hf2.
  destruct (at_index_in_bounds table (waveTableBandFromFreq m_freq))
    as [row Hrow]; [lia |].
  assert (Hlen : Z.of_nat (length row) = WAVETABLE_LENGTH).
  { apply at_index_In in Hrow.
    rewrite Forall_forall in Hcols. apply Hcols. exact Hrow. }
  destruct (at_index_in_bounds row (wtF1 p)) as [s1 Hs1]; [lia |].
  destruct (at_index_in_bounds row (wtF2 p)) as [s2 Hs2]; [lia |].
  exists row, s1, s2. repeat split; try assumption.
  unfold wtSample; cbv zeta. rewrite Hrow, Hs1, Hs2. reflexivity.
Qed.

(** C7.  [wtSample] reads the band row selected from the oscillator's
    frequency at two adjacent indices f1 and f2, where f2 is f1 + 1
    except after the last slot WAVETABLE_LENGTH - 1, where it wraps to
    0, and returns the two samples mixed linearly with the fractional
    part of p * WAVETABLE_LENGTH as weight; this is the table lookup
    as the spec words it. *)
Theorem wtSample_interpolates (K : OscillatorConstants)
  (table : wavetable) (m_freq p : R) :
  constants_ok K ->
  table_dims table ->
  let w := fraction (p * IZR WAVETABLE_LENGTH) in
  wtF2 p = (if (wtF1 p =? WAVETABLE_LENGTH - 1)%Z then 0 else wtF1 p + 1)%Z /\
  (0 <= p < 1 -> wtF1 p = Zfloor (p * IZR WAVETABLE_LENGTH)) /\
  (exists row s1 s2,
     at_index table (waveTableBandFromFreq m_freq) = Some row /\
     at_index row (wtF1 p) = Some s1 /\
     at_index row (wtF2 p) = Some s2 /\
     wtSample table m_freq p = Some ((1 - w) * s1 + w * s2)) /\
  wtSample table m_freq p = tableSample_spec table m_freq p.
Proof.
  intros Kok Hdims w. split; [| split; [| split]].
  - apply wtF2_next. exact Kok.
  - apply wtF1_unit. exact Kok.
  - destruct (wtSample_reads K table m_freq p Kok Hdims)
      as (row & s1 & s2 & Hrow & Hs1 & Hs2 & Hval).
    exists row, s1, s2. repeat split; try assumption.
    rewrite Hval, linearInterpolate_weights. reflexivity.
  - unfold tableSample_spec; cbv zeta.
    change (p * IZR WAVETABLE_LENGTH) with (wtFrame p).
    rewrite <- (wtF1_modulo Kok p), <- (wtF2_modulo Kok p).
    unfold wtSample; cbv zeta.
    destruct (at_index table (waveTableBandFromFreq m_freq)) as [row |];
      [| reflexivity].
    destruct (at_index row (wtF1 p)) as [s1 |]; [| reflexivity].
    destruct (at_index row (wtF2 p)) as [s2 |]; [| reflexivity].
    rewrite linearInterpolate_weights. reflexivity.
Qed.

Lemma wtSample_interpolates_witness :
  wtSample (K := sample_constants) silent_table 440 0.3
  = tableSample_spec (K := sample_constants) silent_table 440 0.3.
Proof.
  apply (wtSample_interpolates sample_constants silent_table 440 0.3).
  - exact sample_constants_ok.
  - exact silent_table_dims.
Defined.

(** C8.  For every phase, negative ones included, and every frequency,
    the indices f1 and f2 of [wtSample] lie between 0 and
    WAVETABLE_LENGTH - 1 and the band lies between 1 and
    WAVE_TABLES_PER_WAVEFORM_COUNT - 1, so that on a table of the
    declared dimensions both reads are inside the array and a sample
    is returned. *)
Theorem wtSample_in_bounds (K : OscillatorConstants)
  (table : wavetable) (m_freq p : R) :
  constants_ok K ->
  table_dims table ->
  (0 <= wtF1 p <= WAVETABLE_LENGTH - 1)%Z /\
  (0 <= wtF2 p <= WAVETABLE_LENGTH - 1)%Z /\
  (1 <= waveTableBandFromFreq m_freq
     <= WAVE_TABLES_PER_WAVEFORM_COUNT - 1)%Z /\
  exists v, wtSample table m_freq p = Some v.
Proof.
  intros Kok Hdims. repeat split.
  1, 2: apply wtF1_range; exact Kok.
  1, 2: apply wtF2_range; exact Kok.
  1, 2: apply waveTableBandFromFreq_range; exact Kok.
  destruct (wtSample_reads K table m_freq p Kok Hdims)
    as (row & s1 & s2 & _ & _ & _ & Hval).
  eexists. exact Hval.
Qed.

Lemma wtSample_in_bounds_witness :
  (0 <= wtF1 (K := sample_constants) (-0.3) <= 1023)%Z /\
  (0 <= wtF2 (K := sample_constants) (-0.3) <= 1023)%Z /\
  (1 <= waveTableBandFromFreq (K := sample_constants) 440 <= 127)%Z /\
  exists v, wtSample (K := sample_constants) silent_table 440 (-0.3) = Some v.
Proof.
  apply (wtSample_in_bounds sample_constants silent_table 440 (-0.3)).
  - exact sample_constants_ok.
  - exact silent_table_dims.
Defined.

(** ** Single precision at the reference points

    The constants and the arguments below are dyadic, and so are all the
    intermediate values: the single-precision routines return the very
    numbers of the real model, no rounding takes place. *)

Lemma b32_triangle_at_breakpoints :
  Binary32.triangleSample (Binary32.lit 0 0) = S754_zero false /\
  Binary32.triangleSample (Binary32.lit 1 (-2)) = Binary32.lit 1 0 /\
  Binary32.triangleSample (Binary32.lit 1 (-1)) = S754_zero false /\
  Binary32.triangleSample (Binary32.lit 3 (-2)) = Binary32.lit (-1) 0.
Proof. repeat split; vm_compute; reflexivity. Qed.

Lemma b32_square_at_midpoint :
  Binary32.fraction (Binary32.lit 1 (-1)) = Binary32.lit 1 (-1) /\
  Binary32.squareSample (Binary32.lit 1 (-1)) = Binary32.lit 1 0.
Proof. split; vm_compute; reflexivity. Qed.

(** On the 4096 phases of [phase_grid] the rounded samplers stay
    between -1 and 1. *)
Lemma b32_unit_range_on_grid :
  forallb (fun p =>
             Binary32.in_unit_range (Binary32.triangleSample p)
             && Binary32.in_unit_range (Binary32.sawSample p)
             && Binary32.in_unit_range (Binary32.squareSample p)
             && Binary32.in_unit_range (Binary32.moogSawSample p)
             && Binary32.in_unit_range (Binary32.expSample p))
          Binary32.phase_grid = true.
Proof. vm_compute. reflexivity. Qed.

(** When p and 1 - p are both floats, as on the grid, the reflection
    in [expSample] is exact and the two samples are the same float. *)
Lemma b32_exp_symmetric_on_grid :
  forallb (fun p =>
             SFeqb (Binary32.expSample p)
                   (Binary32.expSample
                      (Binary32.sub (Binary32.lit 1 0) p)))
          Binary32.phase_grid = true.
Proof. vm_compute. reflexivity. Qed.

(** When 1 - p is not a float the subtraction rounds, a neighbouring
    phase is reflected instead, and the two samples can differ in the
    last place: at p = 0.1f they are one unit apart. *)
Lemma b32_exp_rounded_reflection :
  let p := Binary32.lit 13421773 (-27) in
  Binary32.expSample p = S754_finite true 15435039 (-24) /\
  Binary32.expSample (Binary32.sub (Binary32.lit 1 0) p)
  = S754_finite true 15435038 (-24).
Proof. split; vm_compute; reflexivity. Qed.

(** A pair of reflected phases off the grid: q is the float next to
    0.9 obtained as 1.0f - 0.1f, and p = 1.0f - q is computed without
    rounding, so that p + q = 1 exactly.  On such a pair the fold
    inside [expSample] is exact and the two samples are the same float,
    and [triangleSample], which never rounds on a phase of the first
    period, takes opposite values. *)
Lemma b32_reflected_pair :
  let q := Binary32.sub (Binary32.lit 1 0) (Binary32.lit 13421773 (-27)) in
  let p := Binary32.sub (Binary32.lit 1 0) q in
  q = S754_finite false 15099494 (-24) /\
  p = S754_finite false 13421776 (-27) /\
  SFeqb (Binary32.expSample p) (Binary32.expSample q) = true /\
  SFeqb (Binary32.triangleSample q)
        (SFopp (Binary32.triangleSample p)) = true.
Proof. repeat split; vm_compute; reflexivity. Qed.

(** Phases past the first period: 2.3f, the rounded sum 0.3f + 2.0f,
    1000000.6875f and the largest float below 2^31.  The conversion to
    [int] is defined, [fraction] is computed without rounding, and each
    sampler returns what it returns at the wrapped phase, a value
    between -1 and 1. *)
Lemma b32_wrapped_phases :
  forallb (fun x =>
             let ph := Binary32.fraction x in
             SFleb (Binary32.lit 0 0) ph && SFltb ph (Binary32.lit 1 0)
             && SFeqb (Binary32.triangleSample x) (Binary32.triangleSample ph)
             && SFeqb (Binary32.sawSample x) (Binary32.sawSample ph)
             && SFeqb (Binary32.squareSample x) (Binary32.squareSample ph)
             && SFeqb (Binary32.moogSawSample x) (Binary32.moogSawSample ph)
             && SFeqb (Binary32.expSample x) (Binary32.expSample ph)
             && Binary32.in_unit_range (Binary32.triangleSample x)
             && Binary32.in_unit_range (Binary32.sawSample x)
             && Binary32.in_unit_range (Binary32.squareSample x)
             && Binary32.in_unit_range (Binary32.moogSawSample x)
             && Binary32.in_unit_range (Binary32.expSample x))
          [Binary32.lit 9646899 (-22);
           Binary32.add (Binary32.lit 10066330 (-25)) (Binary32.lit 2 0);
           Binary32.lit 16000011 (-4);
           Binary32.lit 16777215 7] = true.
Proof. vm_compute. reflexivity. Qed.

(** * Further properties of the oscillator routines *)

(** ** Wrapping and symmetries of the samplers *)

Lemma fraction_idempotent (x : R) :
  0 <= x -> fraction (fraction x) = fraction x.
Proof. intros Hx. apply fraction_unit. apply fraction_nonneg. exact Hx. Qed.

(** X1.  A phase that has run past one period is wrapped.  For a phase
    x with 0 <= x < 2^31, the range in which the conversion to [int]
    is defined, each of the five arithmetic samplers returns at x what
    it returns at [fraction x], a phase of the first period, and so a
    value between -1 and 1. *)
Theorem samplers_wrap_phase (x : R) :
  0 <= x < 2147483648 ->
  (triangleSample x = triangleSample (fraction x) /\
   sawSample x = sawSample (fraction x) /\
   squareSample x = squareSample (fraction x) /\
   moogSawSample x = moogSawSample (fraction x) /\
   expSample x = expSample (fraction x)) /\
  0 <= fraction x < 1 /\
  (-1 <= triangleSample x <= 1 /\
   -1 <= sawSample x <= 1 /\
   -1 <= squareSample x <= 1 /\
   -1 <= moogSawSample x <= 1 /\
   -1 <= expSample x <= 1).
Proof.
  intros [Hx _].
  pose proof (fraction_nonneg x Hx) as Hph.
  split; [| split; [exact Hph |]].
  - unfold triangleSample, sawSample, squareSample, moogSawSample, expSample.
    rewrite (fraction_idempotent x Hx). repeat split; reflexivity.
  - pose proof (triangleSample_range x Hph).
    pose proof (sawSample_range x Hph).
    pose proof (moogSawSample_range x Hph).
    pose proof (expSample_range x Hph).
    destruct (squareSample_values x) as [Hs | Hs]; rewrite Hs.
    all: repeat split; lra.
Qed.

Lemma samplers_wrap_phase_witness :
  (triangleSample 2.25 = triangleSample (fraction 2.25) /\
   sawSample 2.25 = sawSample (fraction 2.25) /\
   squareSample 2.25 = squareSample (fraction 2.25) /\
   moogSawSample 2.25 = moogSawSample (fraction 2.25) /\
   expSample 2.25 = expSample (fraction 2.25)) /\
  0 <= fraction 2.25 < 1 /\
  (-1 <= triangleSample 2.25 <= 1 /\
   -1 <= sawSample 2.25 <= 1 /\
   -1 <= squareSample 2.25 <= 1 /\
   -1 <= moogSawSample 2.25 <= 1 /\
   -1 <= expSample 2.25 <= 1).
Proof. apply (samplers_wrap_phase 2.25). lra. Defined.

(** X3.  The triangle is odd about the half period on pairs of phases
    that are each other's reflection: for p and q between 0 and 1
    with p + q = 1, [triangleSample q] is the opposite of
    [triangleSample p]. *)
Theorem triangleSample_odd (p q : R) :
  0 <= p <= 1 -> p + q = 1 -> triangleSample q = - triangleSample p.
Proof.
  intros Hp Hq.
  assert (Hend : triangleSample 1 = 0 /\ triangleSample 0 = 0).
  { unfold triangleSample; cbv zeta.
    rewrite fraction_one, (fraction_unit 0) by lra.
    split; split_cmp; lra. }
  destruct Hend as [H1 H0].
  destruct (Req_dec p 0) as [-> | Hp0].
  { replace q with 1 by lra. rewrite H1, H0. lra. }
  destruct (Req_dec p 1) as [-> | Hp1].
  { replace q with 0 by lra. rewrite H1, H0. lra. }
  unfold triangleSample; cbv zeta.
  rewrite (fraction_unit p), (fraction_unit q) by lra.
  split_cmp; lra.
Qed.

Lemma triangleSample_odd_witness :
  triangleSample 0.875 = - triangleSample 0.125.
Proof. apply (triangleSample_odd 0.125 0.875); lra. Defined.

(** X4.  The triangle has no jump inside a period: two phases p and q
    of [0, 1) give samples at most 4 |p - q| apart. *)
Theorem triangleSample_lipschitz (p q : R) :
  0 <= p < 1 -> 0 <= q < 1 ->
  Rabs (triangleSample p - triangleSample q) <= 4 * Rabs (p - q).
Proof.
  intros Hp Hq. unfold triangleSample; cbv zeta.
  rewrite (fraction_unit p), (fraction_unit q) by lra.
  unfold Rabs.
  destruct (Rcase_abs (p - q)); split_cmp;
    match goal with |- context [Rcase_abs ?t] => destruct (Rcase_abs t) end;
    lra.
Qed.

Lemma triangleSample_lipschitz_witness :
  Rabs (triangleSample 0.2 - triangleSample 0.3) <= 4 * Rabs (0.2 - 0.3).
Proof. apply (triangleSample_lipschitz 0.2 0.3); lra. Defined.

(** X5.  The Moog saw is built from the plain saw: on the first half
    of the period it is the saw at twice the phase, on the second half
    it is the opposite of the saw. *)
Theorem moogSawSample_from_saw (p : R) :
  (0 <= p < 0.5 -> moogSawSample p = sawSample (2 * p)) /\
  (0.5 <= p < 1 -> moogSawSample p = - sawSample p).
Proof.
  split; intros Hp; unfold moogSawSample, sawSample; cbv zeta.
  - rewrite (fraction_unit p), (fraction_unit (2 * p)) by lra.
    split_cmp; lra.
  - rewrite (fraction_unit p) by lra. split_cmp; lra.
Qed.

Lemma moogSawSample_from_saw_witness :
  moogSawSample 0.2 = sawSample (2 * 0.2) /\
  moogSawSample 0.7 = - sawSample 0.7.
Proof.
  split.
  - apply (proj1 (moogSawSample_from_saw 0.2)). lra.
  - apply (proj2 (moogSawSample_from_saw 0.7)). lra.
Defined.

(** ** The band selector and its inverse *)

Lemma powf_2_lt (y z : R) : y < z -> powf 2 y < powf 2 z.
Proof. intros H. unfold powf. apply Rpower_lt; lra. Qed.

(** How the returned band relates to the band before the clamp. *)
Lemma band_clamp_cases (K : OscillatorConstants) (freq : R) :
  let raw := Z.quot (69 + static_cast_int (ceil (12 * log2f (freq / 440))))
                    SEMITONES_PER_TABLE in
  let band := waveTableBandFromFreq freq in
  ((raw <= 1)%Z /\ band = 1%Z) \/
  ((1 < raw)%Z /\ (WAVE_TABLES_PER_WAVEFORM_COUNT - 1 <= raw)%Z /\
   band = (WAVE_TABLES_PER_WAVEFORM_COUNT - 1)%Z) \/
  ((1 < raw)%Z /\ (raw < WAVE_TABLES_PER_WAVEFORM_COUNT - 1)%Z /\
   band = raw).
Proof.
  unfold waveTableBandFromFreq; cbv zeta.
  set (raw := Z.quot _ _).
  destruct (Z.leb_spec raw 1); [left; lia |].
  destruct (Z.geb_spec raw (WAVE_TABLES_PER_WAVEFORM_COUNT - 1));
    right; [left | right]; lia.
Qed.

(** X7.  [freqFromWaveTableBand] is positive and strictly increasing in
    the band. *)
Theorem freqFromWaveTableBand_increasing
  (K : OscillatorConstants) (b1 b2 : Z) :
  constants_ok K ->
  (b1 < b2)%Z ->
  0 < freqFromWaveTableBand b1 < freqFromWaveTableBand b2.
Proof.
  intros Kok Hb. unfold freqFromWaveTableBand.
  assert (Hs : (0 < SEMITONES_PER_TABLE)%Z) by apply Kok.
  assert (Hlt : IZR (b1 * SEMITONES_PER_TABLE) < IZR (b2 * SEMITONES_PER_TABLE)).
  { apply IZR_lt. nia. }
  pose proof (powf_pos 2 ((IZR (b1 * SEMITONES_PER_TABLE) - 69) / 12)).
  pose proof (powf_2_lt ((IZR (b1 * SEMITONES_PER_TABLE) - 69) / 12)
                        ((IZR (b2 * SEMITONES_PER_TABLE) - 69) / 12)).
  lra.
Qed.

Lemma freqFromWaveTableBand_increasing_witness :
  0 < freqFromWaveTableBand (K := sample_constants) 10
    < freqFromWaveTableBand (K := sample_constants) 11.
Proof.
  apply (freqFromWaveTableBand_increasing sample_constants 10 11).
  - exact sample_constants_ok.
  - lia.
Defined.

(** The semitone distance of a band frequency to 440 Hz. *)
Lemma semitones_of_band (K : OscillatorConstants) (b : Z) :
  12 * log2f (freqFromWaveTableBand b / 440)
  = IZR (b * SEMITONES_PER_TABLE - 69).
Proof.
  unfold freqFromWaveTableBand.
  replace (440 * powf 2 ((IZR (b * SEMITONES_PER_TABLE) - 69) / 12) / 440)
    with (powf 2 ((IZR (b * SEMITONES_PER_TABLE) - 69) / 12)) by (field; lra).
  rewrite log2f_powf, minus_IZR. field.
Qed.

(** X8.  The band scale is anchored at the concert pitch: a band that
    lies 69 semitones up the scale has frequency 440 exactly. *)
Theorem freqFromWaveTableBand_anchor (K : OscillatorConstants) (b : Z) :
  (b * SEMITONES_PER_TABLE = 69)%Z -> freqFromWaveTableBand b = 440.
Proof.
  intros H. unfold freqFromWaveTableBand.
  rewrite H. replace ((69 - 69) / 12) with 0 by lra.
  unfold powf. rewrite Rpower_O by lra. lra.
Qed.

Lemma freqFromWaveTableBand_anchor_witness :
  freqFromWaveTableBand (K := sample_constants) 69 = 440.
Proof.
  apply (freqFromWaveTableBand_anchor sample_constants 69). reflexivity.
Defined.

(** X10.  The clamp saturates at both ends of the scale: a positive
    frequency up to that of band 1 selects band 1, a frequency from
    that of the last band on selects the last band. *)
Theorem waveTableBandFromFreq_saturates (K : OscillatorConstants) (freq : R) :
  constants_ok K ->
  (0 < freq <= freqFromWaveTableBand 1 ->
   waveTableBandFromFreq freq = 1%Z) /\
  (freqFromWaveTableBand (WAVE_TABLES_PER_WAVEFORM_COUNT - 1) <= freq ->
   waveTableBandFromFreq freq = (WAVE_TABLES_PER_WAVEFORM_COUNT - 1)%Z).
Proof.
  intros Kok.
  assert (Hs : (0 < SEMITONES_PER_TABLE)%Z) by apply Kok.
  assert (Hc : (2 <= WAVE_TABLES_PER_WAVEFORM_COUNT)%Z) by apply Kok.
  pose proof (band_clamp_cases K freq) as Hcases; cbv zeta in Hcases.
  rewrite static_cast_int_ceil in Hcases.
  set (y := 12 * log2f (freq / 440)) in *.
  pose proof (Zceil_bound y) as Hy.
  split; intros Hf.
  - assert (Hle : y <= IZR (1 * SEMITONES_PER_TABLE - 69)).
    { rewrite <- semitones_of_band. unfold y.
      apply Rmult_le_compat_l; [lra |]. apply log2f_mono. lra. }
    assert (Hn : (69 + Zceil y <= 1 * SEMITONES_PER_TABLE)%Z).
    { assert (Zceil y < 1 * SEMITONES_PER_TABLE - 69 + 1)%Z; [| lia].
      apply lt_IZR. rewrite plus_IZR. lra. }
    assert (Hq : (Z.quot (69 + Zceil y) SEMITONES_PER_TABLE <= 1)%Z).
    { pose proof (Z.quot_le_mono _ _ SEMITONES_PER_TABLE Hs Hn) as Hm.
      rewrite Z.quot_mul in Hm by lia. exact Hm. }
    destruct Hcases as [[? ?] | [[? [? ?]] | [? [? ?]]]]; lia.
  - set (last := (WAVE_TABLES_PER_WAVEFORM_COUNT - 1)%Z) in *.
    assert (Hpos : 0 < freqFromWaveTableBand last)
      by (unfold freqFromWaveTableBand; pose proof (powf_pos 2
            ((IZR (last * SEMITONES_PER_TABLE) - 69) / 12)); lra).
    assert (Hge : IZR (last * SEMITONES_PER_TABLE - 69) <= y).
    { rewrite <- semitones_of_band. unfold y.
      apply Rmult_le_compat_l; [lra |]. apply log2f_mono.
      split; [apply Rdiv_lt_0_compat; lra | lra]. }
    assert (Hn : (last * SEMITONES_PER_TABLE <= 69 + Zceil y)%Z).
    { assert (last * SEMITONES_PER_TABLE - 69 <= Zceil y)%Z; [| lia].
      apply le_IZR. lra. }
    assert (Hq : (last <= Z.quot (69 + Zceil y) SEMITONES_PER_TABLE)%Z).
    { pose proof (Z.quot_le_mono _ _ SEMITONES_PER_TABLE Hs Hn) as Hm.
      rewrite Z.quot_mul in Hm by lia. exact Hm. }
    destruct Hcases as [[? ?] | [[? [? ?]] | [? [? ?]]]]; lia.
Qed.

Lemma waveTableBandFromFreq_saturates_witness :
  waveTableBandFromFreq (K := sample_constants)
    (freqFromWaveTableBand (K := sample_constants) 1) = 1%Z /\
  waveTableBandFromFreq (K := sample_constants)
    (freqFromWaveTableBand (K := sample_constants) 127) = 127%Z.
Proof.
  assert (H1 : 0 < freqFromWaveTableBand (K := sample_constants) 1).
  { unfold freqFromWaveTableBand.
    pose proof (powf_pos 2
      ((IZR (1 * SEMITONES_PER_TABLE (OscillatorConstants := sample_constants))
        - 69) / 12)).
    lra. }
  split.
  - apply (proj1 (waveTableBandFromFreq_saturates sample_constants _
                    sample_constants_ok)).
    lra.
  - apply (proj2 (waveTableBandFromFreq_saturates sample_constants _
                    sample_constants_ok)).
    apply Rle_refl.
Defined.

(** X12.  The round trip is stable under a computed logarithm that is
    off by less than one semitone: the band is then b or b + 1. *)
Theorem band_roundtrip_stable (K : OscillatorConstants) (b : Z) (freq : R) :
  constants_ok K ->
  (1 <= b <= WAVE_TABLES_PER_WAVEFORM_COUNT - 1)%Z ->
  Rabs (12 * log2f (freq / 440) - IZR (b * SEMITONES_PER_TABLE - 69)) < 1 ->
  (b <= waveTableBandFromFreq freq <= b + 1)%Z.
Proof. apply band_near_boundary. Qed.

Lemma band_roundtrip_stable_witness :
  (60 <= waveTableBandFromFreq (K := sample_constants)
           (freqFromWaveTableBand (K := sample_constants) 60) <= 60 + 1)%Z.
Proof.
  apply (band_roundtrip_stable sample_constants 60).
  - exact sample_constants_ok.
  - simpl. lia.
  - rewrite semitones_of_band.
    rewrite Rminus_diag, Rabs_R0. lra.
Defined.

(** ** The table lookup between and at the table samples *)







(** * The step recorder *)

Section StepRecorderProperties.
Import StepRecorder.
#[local] Open Scope Z_scope.

Lemma updateCurStepNotes_fields (s : t) :
  m_isRecording (updateCurStepNotes s) = m_isRecording s /\
  m_isStepInProgress (updateCurStepNotes s) = m_isStepInProgress s /\
  m_curStepStartPos (updateCurStepNotes s) = m_curStepStartPos s /\
  m_curStepLength (updateCurStepNotes s) = m_curStepLength s /\
  m_stepsLength (updateCurStepNotes s) = m_stepsLength s /\
  m_pattern (updateCurStepNotes s) = m_pattern s.
Proof. repeat split. Qed.

(** X16.  [start] puts the cursor on the quantization grid at or just
    before the current position.  On a recorder whose positions are
    [positions_ok] and fit in an [int], for a quantization q > 0, a
    position p >= 0 and a step length l > 0 (all of [int]): the new
    step starts at a multiple of q with start <= p < start + q, has
    length 0 and no notes, the recorder is recording and the widget is
    shown. *)
Theorem start_quantizes (q p l : Z) (s : t) :
  positions_ok s -> fits s -> call_ok (Call_start q p l) s ->
  let s' := start q p l s in
  (q | m_curStepStartPos s') /\
  m_curStepStartPos s' <= p < m_curStepStartPos s' + q /\
  m_curStepLength s' = 0 /\
  m_stepsLength s' = l /\
  m_curStepNotes s' = [] /\
  m_isStepInProgress s' = false /\
  m_isRecording s' = true /\
  visible (m_stepRecorderWidget s') = true.
Proof.
  intros _ _ ((Hq & _) & (Hp & _) & _) s'. subst s'.
  pose proof (Z.quot_rem' p q) as Hqr.
  pose proof (Z.rem_bound_pos p q Hp Hq) as Hr.
  unfold start, prepareNewStep, getCurStepEndPos, setStepsLength; cbn.
  destruct (m_isStepInProgress s); cbn; rewrite Z.add_0_r.
  all: split; [exists (Z.quot p q); reflexivity |].
  all: repeat split; lia.
Qed.

Lemma idle_positions_ok : positions_ok (idle 48) /\ fits (idle 48).
Proof. unfold positions_ok, fits, INT_MAX; simpl; lia. Qed.

Lemma start_quantizes_witness :
  let s' := start 48 100 12 (idle 48) in
  (48 | m_curStepStartPos s') /\
  m_curStepStartPos s' <= 100 < m_curStepStartPos s' + 48 /\
  m_curStepLength s' = 0 /\
  m_stepsLength s' = 12 /\
  m_curStepNotes s' = [] /\
  m_isStepInProgress s' = false /\
  m_isRecording s' = true /\
  visible (m_stepRecorderWidget s') = true.
Proof.
  apply (start_quantizes 48 100 12 (idle 48)).
  - exact (proj1 idle_positions_ok).
  - exact (proj2 idle_positions_ok).
  - unfold call_ok, INT_MAX; simpl. repeat split; try lia; discriminate.
Defined.

(** X17.  [stepBackwards] undoes [stepForwards]: with a start
    position, a step length and a current length that are not
    negative, and as long as the step forwards stays within [int]
    (start + current length + step length <= INT_MAX), a step forwards
    followed by a step backwards leaves the start position and the
    current length as they were. *)
Theorem stepBackwards_undoes_stepForwards (s : t) :
  0 <= m_curStepStartPos s -> 0 <= m_curStepLength s -> 0 <= m_stepsLength s ->
  m_curStepStartPos s + m_curStepLength s + m_stepsLength s <= INT_MAX ->
  let s' := stepBackwards (stepForwards s) in
  m_curStepStartPos s' = m_curStepStartPos s /\
  m_curStepLength s' = m_curStepLength s /\
  m_stepsLength s' = m_stepsLength s /\
  m_isStepInProgress s' = m_isStepInProgress s.
Proof.
  intros Hs Hl Hst _ s'. subst s'.
  unfold stepBackwards, stepForwards.
  destruct (m_isStepInProgress s) eqn:Hin; cbn; rewrite ?Hin; cbn.
  - destruct (Z.ltb_spec 0 (m_curStepLength s + m_stepsLength s)); cbn;
      repeat split; first [assumption | lia].
  - repeat split; first [assumption | lia].
Qed.

Lemma stepBackwards_undoes_stepForwards_witness :
  let s' := stepBackwards (stepForwards (idle 48)) in
  m_curStepStartPos s' = 0 /\
  m_curStepLength s' = 0 /\
  m_stepsLength s' = 48 /\
  m_isStepInProgress s' = false.
Proof.
  apply (stepBackwards_undoes_stepForwards (idle 48));
    unfold INT_MAX; simpl; lia.
Defined.



(** X19.  Changing the step length in the middle of a step keeps the
    number of steps taken: a current length of k >= 0 steps of the old
    (positive) length becomes k steps of the new length, and every
    note of the step is given that length, as long as the recorder
    fits in an [int] before the call and the new end position
    start + k * newLength is a value of [int] as well. *)
Theorem setStepsLength_keeps_step_count (newLength k : Z) (s : t) :
  m_isStepInProgress s = true ->
  0 < m_stepsLength s ->
  0 <= k -> 0 <= newLength <= INT_MAX -> 0 <= m_curStepStartPos s ->
  fits s ->
  m_curStepLength s = k * m_stepsLength s ->
  m_curStepStartPos s + k * newLength <= INT_MAX ->
  let s' := setStepsLength newLength s in
  m_stepsLength s' = newLength /\
  m_curStepLength s' = k * newLength /\
  Forall (fun sn => m_length (m_note sn) = k * newLength) (m_curStepNotes s') /\
  map (fun sn => m_key (m_note sn)) (m_curStepNotes s')
  = map (fun sn => m_key (m_note sn)) (m_curStepNotes s).
Proof.
  intros Hin Hne _ _ _ _ Hlen _ s'. subst s'. unfold setStepsLength.
  rewrite Hin, Hlen, Z.quot_mul by lia. cbn.
  repeat split.
  - apply Forall_forall. intros sn Hsn.
    apply in_map_iff in Hsn. destruct Hsn as (sn0 & <- & _). reflexivity.
  - rewrite map_map. reflexivity.
Qed.

Lemma setStepsLength_keeps_step_count_witness :
  let s := notePressed (mkNote 0 0 60 100 0) (idle 48) in
  let s' := setStepsLength 12 s in
  m_stepsLength s' = 12 /\
  m_curStepLength s' = 1 * 12 /\
  Forall (fun sn => m_length (m_note sn) = 1 * 12) (m_curStepNotes s') /\
  map (fun sn => m_key (m_note sn)) (m_curStepNotes s')
  = map (fun sn => m_key (m_note sn)) (m_curStepNotes s).
Proof.
  apply (setStepsLength_keeps_step_count 12 1
           (notePressed (mkNote 0 0 60 100 0) (idle 48)));
    unfold fits, INT_MAX; simpl; first [reflexivity | lia].
Defined.

(** *** One key, one note *)

(** X20.  Pressing and releasing one key outside a step records one
    note: with a step length L > 0 and a start position start >= 0
    such that start + L stays within [int], the pattern receives
    exactly one note of length L at the start position with the key,
    volume and panning of the pressed note, and the cursor then stands
    one step further with no step in progress. *)
Theorem press_release_records_one_note (n : Note) (s : t) :
  m_isStepInProgress s = false ->
  m_curStepNotes s = [] ->
  m_curStepLength s = 0 ->
  0 < m_stepsLength s ->
  0 <= m_curStepStartPos s ->
  m_curStepStartPos s + m_stepsLength s <= INT_MAX ->
  let s' := noteReleased n (notePressed n s) in
  m_pattern s'
  = m_pattern s ++ [mkNote (m_stepsLength s) (m_curStepStartPos s)
                      (m_key n) (m_volume n) (m_panning n)] /\
  m_curStepStartPos s' = m_curStepStartPos s + m_stepsLength s /\
  m_curStepLength s' = 0 /\
  m_curStepNotes s' = [] /\
  m_isStepInProgress s' = false.
Proof.
  intros Hin Hnotes Hlen Hpos _ _ s'. subst s'.
  unfold notePressed. rewrite Hin. cbn.
  unfold findCurStepNote. cbn. rewrite Hnotes, Hlen. cbn.
  unfold noteReleased, findCurStepNote. cbn.
  rewrite Z.eqb_refl. cbn.
  assert (Hl : (0 <? m_stepsLength s) = true) by (apply Z.ltb_lt; lia).
  destruct (m_updateReleasedTimer s); cbn.
  all: rewrite ?Hlen, ?Z.add_0_l, Hl; unfold applyStep, prepareNewStep; cbn.
  all: unfold stepForwards; cbn; rewrite ?Hin; cbn; rewrite ?Hlen.
  all: repeat split; lia.
Qed.

Lemma press_release_records_one_note_witness :
  let n := mkNote 0 0 60 100 0 in
  let s' := noteReleased n (notePressed n (idle 48)) in
  m_pattern s' = [] ++ [mkNote 48 0 60 100 0] /\
  m_curStepStartPos s' = 0 + 48 /\
  m_curStepLength s' = 0 /\
  m_curStepNotes s' = [] /\
  m_isStepInProgress s' = false.
Proof.
  apply (press_release_records_one_note (mkNote 0 0 60 100 0) (idle 48));
    unfold INT_MAX; simpl; first [reflexivity | lia].
Defined.

(** *** What every call preserves *)

Lemma keys_updateNote (f : StepNote -> StepNote) (i : nat)
  (notes : list StepNote) :
  (forall sn, note_key (f sn) = note_key sn) ->
  map note_key (updateNote f i notes) = map note_key notes.
Proof.
  intros Hf. revert i.
  induction notes as [| sn rest IH]; intros [| j]; cbn;
    rewrite ?Hf, ?IH; reflexivity.
Qed.

Lemma findNote_None (key : Z) (notes : list StepNote) :
  findNote key notes = None -> ~ In key (map note_key notes).
Proof.
  induction notes as [| sn rest IH]; cbn; [tauto |].
  destruct (Z.eqb_spec (m_key (m_note sn)) key) as [| Hne]; [discriminate |].
  destruct (findNote key rest); [discriminate |].
  intros _ [Heq | Hin]; [exact (Hne Heq) | exact (IH eq_refl Hin)].
Qed.

Lemma findNote_Some (key : Z) (notes : list StepNote) (i : nat) :
  findNote key notes = Some i ->
  exists sn, nth_error notes i = Some sn /\ note_key sn = key.
Proof.
  revert i. induction notes as [| sn rest IH]; cbn; [discriminate |].
  intros i. destruct (Z.eqb_spec (m_key (m_note sn)) key) as [Heq | Hne].
  - intros [= <-]. exists sn. split; [reflexivity | exact Heq].
  - destruct (findNote key rest) as [j |]; [| discriminate].
    intros [= <-]. exact (IH j eq_refl).
Qed.

Lemma sweepReleased_kept (tsr : StepNote -> Z) (notes : list StepNote)
  (nt : Z) (nr : bool) :
  fst (fst (sweepReleased tsr notes nt nr)) = filter (keptNote tsr) notes.
Proof.
  revert nt nr. induction notes as [| sn rest IH]; intros nt nr; cbn;
    [reflexivity |].
  unfold keptNote, isReleased, isPressed.
  destruct (m_pressed sn); cbn.
  - specialize (IH nt nr).
    destruct (sweepReleased tsr rest nt nr) as [[kept nt'] nr']; cbn in *.
    rewrite IH. reflexivity.
  - destruct (Z.geb_spec (tsr sn) REMOVE_RELEASED_NOTE_TIME_THRESHOLD_MS),
             (Z.ltb_spec (tsr sn) REMOVE_RELEASED_NOTE_TIME_THRESHOLD_MS);
      try lia.
    + apply IH.
    + specialize (IH (Z.min nt (REMOVE_RELEASED_NOTE_TIME_THRESHOLD_MS - tsr sn)) nr).
      destruct (sweepReleased tsr rest _ nr) as [[kept nt'] nr']; cbn in *.
      rewrite IH. reflexivity.
Qed.

Lemma NoDup_map_filter {A B : Type} (g : A -> B) (f : A -> bool)
  (l : list A) :
  NoDup (map g l) -> NoDup (map g (filter f l)).
Proof.
  induction l as [| a l IH]; cbn; [trivial |].
  intros Hnd. inversion Hnd as [| ? ? Hnotin Hrest]; subst.
  destruct (f a); cbn; [constructor |]; auto.
  intros Hin. apply Hnotin.
  apply in_map_iff in Hin. destruct Hin as (x & Hx & Hfx).
  apply filter_In in Hfx. apply in_map_iff. exists x. tauto.
Qed.

Lemma consistent_prepareNewStep (s : t) : consistent (prepareNewStep s).
Proof.
  unfold consistent, widget_in_sync, keys, prepareNewStep, getCurStepEndPos.
  cbn. repeat split; constructor.
Qed.

Lemma keys_updateCurStepNotes (s : t) : keys (updateCurStepNotes s) = keys s.
Proof. unfold keys, updateCurStepNotes. cbn. rewrite map_map. reflexivity. Qed.

Lemma consistent_stepForwards (s : t) :
  consistent s -> consistent (stepForwards s).
Proof.
  intros (Hnd & Hidle & Hw). unfold stepForwards.
  destruct (m_isStepInProgress s) eqn:Hin.
  - unfold consistent, widget_in_sync, getCurStepEndPos.
    change (keys (updateWidget ?x)) with (keys x).
    rewrite keys_updateCurStepNotes. cbn. rewrite Hin.
    repeat split; [exact Hnd | discriminate | discriminate].
  - destruct (Hidle eq_refl) as [Hnotes Hlen].
    unfold consistent, widget_in_sync, keys, getCurStepEndPos in *.
    cbn. rewrite Hin. repeat split; assumption.
Qed.

Lemma consistent_stepBackwards (s : t) :
  consistent s -> consistent (stepBackwards s).
Proof.
  intros (Hnd & Hidle & Hw). unfold stepBackwards.
  destruct (m_isStepInProgress s) eqn:Hin.
  - unfold consistent, widget_in_sync, getCurStepEndPos.
    change (keys (updateWidget ?x)) with (keys x).
    rewrite keys_updateCurStepNotes.
    destruct (0 <? m_curStepLength s); cbn; rewrite Hin;
      (repeat split; [exact Hnd | discriminate | discriminate]).
  - destruct (Hidle eq_refl) as [Hnotes Hlen].
    unfold consistent, widget_in_sync, keys, getCurStepEndPos in *.
    cbn. rewrite Hin. repeat split; assumption.
Qed.

Lemma consistent_setStepsLength (l : Z) (s : t) :
  consistent s -> consistent (setStepsLength l s).
Proof.
  intros (Hnd & Hidle & Hw). unfold setStepsLength.
  destruct (m_isStepInProgress s) eqn:Hin.
  - unfold consistent, widget_in_sync, getCurStepEndPos.
    change (keys (updateWidget ?x)) with (keys x).
    change (keys (set_stepsLength ?l ?x)) with (keys x).
    rewrite keys_updateCurStepNotes. cbn. rewrite Hin.
    repeat split; [exact Hnd | discriminate | discriminate].
  - destruct (Hidle eq_refl) as [Hnotes Hlen].
    unfold consistent, widget_in_sync, keys, getCurStepEndPos in *.
    cbn. rewrite Hin. repeat split; assumption.
Qed.

(** Inside a step, consistency only looks at the keys, the positions
    and the widget. *)
Lemma consistent_in_step (s s' : t) :
  consistent s ->
  m_isStepInProgress s' = true ->
  keys s' = keys s ->
  m_curStepStartPos s' = m_curStepStartPos s ->
  m_curStepLength s' = m_curStepLength s ->
  m_stepsLength s' = m_stepsLength s ->
  m_stepRecorderWidget s' = m_stepRecorderWidget s ->
  consistent s'.
Proof.
  intros (Hnd & Hidle & Hw) Hin Hk Hs Hl Hst Hwd.
  unfold consistent, widget_in_sync, getCurStepEndPos in *.
  rewrite Hk, Hs, Hl, Hst, Hwd, Hin.
  repeat split; try discriminate; try apply Hw. exact Hnd.
Qed.

Lemma consistent_notePressed (n : Note) (s : t) :
  consistent s -> consistent (notePressed n s).
Proof.
  intros Hc. unfold notePressed.
  set (s1 := if negb (m_isStepInProgress s)
             then stepForwards (set_isStepInProgress true s) else s).
  assert (H1 : consistent s1 /\ m_isStepInProgress s1 = true).
  { subst s1. destruct (m_isStepInProgress s) eqn:Hin; cbn.
    - split; assumption.
    - destruct Hc as (Hnd & Hidle & Hw).
      destruct (Hidle Hin) as [Hnotes Hlen].
      unfold stepForwards, consistent, widget_in_sync, keys,
        getCurStepEndPos in *.
      cbn. rewrite Hnotes. cbn. repeat split; try discriminate.
      constructor. }
  destruct H1 as [Hc1 Hin1].
  unfold findCurStepNote.
  destruct (findNote (m_key n) (m_curStepNotes s1)) as [i |] eqn:Hfind.
  - destruct (nth_error (m_curStepNotes s1) i) as [sn |]; [| exact Hc1].
    destruct (isReleased sn); [| exact Hc1].
    destruct Hc1 as (Hnd & Hidle & Hw).
    unfold consistent, widget_in_sync, keys, getCurStepEndPos in *. cbn.
    rewrite keys_updateNote by reflexivity. rewrite Hin1.
    repeat split; try discriminate; try apply Hw. exact Hnd.
  - apply findNote_None in Hfind.
    destruct Hc1 as (Hnd & Hidle & Hw).
    unfold consistent, widget_in_sync, keys, getCurStepEndPos in *. cbn.
    rewrite map_app, Hin1. cbn.
    repeat split; try discriminate; try apply Hw.
    apply NoDup_app; [exact Hnd | repeat constructor; intros [] |].
    intros k Hk [Heq | []]. subst k. exact (Hfind Hk).
Qed.

Lemma consistent_noteReleased (n : Note) (s : t) :
  consistent s -> consistent (noteReleased n s).
Proof.
  intros Hc. unfold noteReleased, findCurStepNote.
  destruct (findNote (m_key n) (m_curStepNotes s)) as [i |]; [| exact Hc].
  destruct (nth_error (m_curStepNotes s) i) as [sn |] eqn:Hnth; [| exact Hc].
  destruct (isPressed sn); [| exact Hc].
  set (s1 := set_curStepNotes _ s).
  set (s2 := match m_updateReleasedTimer s1 with
             | Some _ => s1
             | None => set_timer (Some REMOVE_RELEASED_NOTE_TIME_THRESHOLD_MS) s1
             end).
  assert (Hin : m_isStepInProgress s = true).
  { destruct Hc as (_ & Hidle & _).
    destruct (m_isStepInProgress s); [reflexivity |].
    destruct (Hidle eq_refl) as [Hnotes _]. rewrite Hnotes in Hnth.
    destruct i; discriminate. }
  assert (H2 : consistent s2 /\ m_isStepInProgress s2 = true).
  { split; [| subst s2 s1; cbn; destruct (m_updateReleasedTimer s); exact Hin].
    apply (consistent_in_step s); try assumption.
    all: subst s2 s1; cbn; destruct (m_updateReleasedTimer s);
      try reflexivity; try exact Hin.
    all: unfold keys; cbn; apply keys_updateNote; reflexivity. }
  destruct H2 as [Hc2 Hin2].
  destruct (allCurStepNotesReleased s2); [| exact Hc2].
  destruct (0 <? m_curStepLength s2).
  - apply consistent_prepareNewStep.
  - unfold dismissStep. rewrite Hin2. apply consistent_prepareNewStep.
Qed.

Lemma consistent_removeNotesReleasedForTooLong
  (tsr : StepNote -> Z) (s : t) :
  consistent s -> consistent (removeNotesReleasedForTooLong tsr s).
Proof.
  intros (Hnd & Hidle & Hw). unfold removeNotesReleasedForTooLong.
  pose proof (sweepReleased_kept tsr (m_curStepNotes s) INT_MAX false) as Hk.
  destruct (sweepReleased tsr (m_curStepNotes s) INT_MAX false)
    as [[kept nt] nr]; cbn in Hk. subst kept.
  unfold consistent, widget_in_sync, keys, getCurStepEndPos in *.
  destruct (negb (nt =? INT_MAX)); cbn.
  all: split; [apply NoDup_map_filter; exact Hnd | split; [| exact Hw]].
  all: intros Hin; destruct (Hidle Hin) as [Hnotes Hlen];
    rewrite Hnotes; auto.
Qed.

Lemma consistent_run (c : call) (s : t) :
  consistent s -> consistent (run c s).
Proof.
  intros Hc. destruct c as [q p l | | n | n | k r | l | tsr]; cbn.
  - apply consistent_prepareNewStep.
  - destruct Hc as (Hnd & Hidle & Hw).
    unfold stop, widget_show, consistent, widget_in_sync, keys,
      getCurStepEndPos in *. cbn.
    split; [exact Hnd | split; [exact Hidle | exact Hw]].
  - apply consistent_notePressed. exact Hc.
  - apply consistent_noteReleased. exact Hc.
  - destruct k, r; cbn; auto using consistent_stepForwards,
      consistent_stepBackwards.
  - apply consistent_setStepsLength. exact Hc.
  - apply consistent_removeNotesReleasedForTooLong. exact Hc.
Qed.

Lemma consistent_idle (l : Z) : consistent (idle l).
Proof.
  unfold consistent, widget_in_sync, keys, getCurStepEndPos, idle. cbn.
  repeat split. constructor.
Qed.

Lemma positions_ok_run (c : call) (s : t) :
  call_ok c s -> positions_ok s -> positions_ok (run c s).
Proof.
  intros Hok (Hs & Hl & Hst). unfold positions_ok.
  destruct c as [q p l | | n | n | k r | l | tsr]; cbn in *.
  - destruct Hok as ((Hq & _) & (Hp & _) & (Hlen & _) & _).
    unfold start, prepareNewStep, getCurStepEndPos, setStepsLength; cbn.
    assert (0 <= Z.quot p q * q) by (apply Z.mul_nonneg_nonneg;
      [apply Z.quot_pos |]; lia).
    destruct (m_isStepInProgress s); cbn; lia.
  - lia.
  - unfold notePressed, findCurStepNote, stepForwards.
    destruct (m_isStepInProgress s); cbn.
    + destruct (findNote (m_key n) (m_curStepNotes s)) as [i |]; cbn;
        [| lia].
      destruct (nth_error (m_curStepNotes s) i) as [sn |]; cbn; [| lia].
      destruct (isReleased sn); cbn; lia.
    + destruct (findNote (m_key n) _) as [i |]; cbn; [| lia].
      destruct (nth_error _ i) as [sn |]; cbn; [| lia].
      destruct (isReleased sn); cbn; lia.
  - unfold noteReleased, findCurStepNote.
    destruct (findNote (m_key n) (m_curStepNotes s)) as [i |]; cbn; [| lia].
    destruct (nth_error (m_curStepNotes s) i) as [sn |]; cbn; [| lia].
    destruct (isPressed sn); cbn; [| lia].
    unfold dismissStep, applyStep, prepareNewStep, getCurStepEndPos.
    destruct (m_updateReleasedTimer s); cbn;
      repeat (match goal with
              | |- context [if ?b then _ else _] => destruct b
              end; cbn);
      lia.
  - unfold stepForwards, stepBackwards.
    destruct k, r; cbn;
      repeat (match goal with
              | |- context [if ?b then _ else _] => destruct b
              end; cbn);
      lia.
  - unfold setStepsLength.
    assert (0 <= Z.quot (m_curStepLength s) (m_stepsLength s) * l)
      by (apply Z.mul_nonneg_nonneg; [apply Z.quot_pos |]; lia).
    destruct (m_isStepInProgress s); cbn; lia.
  - unfold removeNotesReleasedForTooLong.
    destruct (sweepReleased tsr (m_curStepNotes s) INT_MAX false)
      as [[kept nt] nr].
    destruct (negb (nt =? INT_MAX)); cbn; lia.
Qed.

(** The sequence of calls of the two witnesses below. *)
Lemma example_calls_fit :
  run_fits [Call_start 48 100 12;
            Call_keyPressEvent Key_Left false;
            Call_notePressed (mkNote 0 0 60 100 0);
            Call_notePressed (mkNote 0 0 64 100 0);
            Call_keyPressEvent Key_Right false;
            Call_keyPressEvent Key_Left false;
            Call_noteReleased (mkNote 0 0 60 100 0)]
    (idle 48).
Proof.
  unfold run_fits, call_ok, fits, INT_MAX; simpl.
  repeat split; try lia; discriminate.
Qed.

(** X21.  As long as the recorder stays within [int] ([run_fits]),
    whatever calls arrive in whatever order, the recorder stays
    consistent: the notes of the current step have pairwise distinct
    keys, outside a step there are no pending notes and the current
    length is 0, and the widget shows the start, the end and the step
    length of the current step. *)
Theorem calls_keep_recorder_consistent (cs : list call) (s : t) :
  consistent s -> positions_ok s -> fits s -> run_fits cs s ->
  consistent (run_all cs s).
Proof.
  unfold run_all. intros Hc Hp _ Hfits. revert s Hc Hp Hfits.
  induction cs as [| c cs IH]; intros s Hc Hp Hfits; cbn; [exact Hc |].
  destruct Hfits as (Hok & _ & Hrest).
  apply IH.
  - apply consistent_run. exact Hc.
  - apply positions_ok_run; assumption.
  - exact Hrest.
Qed.

Lemma calls_keep_recorder_consistent_witness :
  consistent
    (run_all [Call_start 48 100 12;
              Call_keyPressEvent Key_Left false;
              Call_notePressed (mkNote 0 0 60 100 0);
              Call_notePressed (mkNote 0 0 64 100 0);
              Call_keyPressEvent Key_Right false;
              Call_keyPressEvent Key_Left false;
              Call_noteReleased (mkNote 0 0 60 100 0)]
       (idle 48)).
Proof.
  apply (calls_keep_recorder_consistent _ (idle 48)).
  - exact (consistent_idle 48).
  - exact (proj1 idle_positions_ok).
  - exact (proj2 idle_positions_ok).
  - exact example_calls_fit.
Defined.

(** X22.  Positions never become negative and the step length never
    becomes 0: from a start position and a current length that are
    not negative and a positive step length, any sequence of calls
    during which the recorder stays within [int] ([run_fits]) leaves
    them so.  The divisions by the quantization in [start] and by the
    step length in [setStepsLength] are then never divisions by
    zero. *)
Theorem calls_keep_positions_ok (cs : list call) (s : t) :
  positions_ok s -> fits s -> run_fits cs s ->
  positions_ok (run_all cs s).
Proof.
  unfold run_all. intros Hp _ Hfits. revert s Hp Hfits.
  induction cs as [| c cs IH]; intros s Hp Hfits; cbn; [exact Hp |].
  destruct Hfits as (Hok & _ & Hrest).
  apply IH; [apply positions_ok_run |]; assumption.
Qed.

Lemma calls_keep_positions_ok_witness :
  let s' := run_all [Call_start 48 100 12;
                     Call_keyPressEvent Key_Left false;
                     Call_notePressed (mkNote 0 0 60 100 0);
                     Call_notePressed (mkNote 0 0 64 100 0);
                     Call_keyPressEvent Key_Right false;
                     Call_keyPressEvent Key_Left false;
                     Call_noteReleased (mkNote 0 0 60 100 0)]
              (idle 48) in
  positions_ok s'.
Proof.
  apply (calls_keep_positions_ok _ (idle 48)).
  - exact (proj1 idle_positions_ok).
  - exact (proj2 idle_positions_ok).
  - exact example_calls_fit.
Defined.

(** *** Release of a key *)

Lemma allReleased_false (notes : list StepNote) (sn : StepNote) :
  In sn notes -> isPressed sn = true -> allReleased notes = false.
Proof.
  induction notes as [| a rest IH]; cbn; [tauto |].
  intros [-> | Hin] Hp.
  - rewrite Hp. reflexivity.
  - destruct (isPressed a); [reflexivity | exact (IH Hin Hp)].
Qed.

Lemma updateNote_other_key (f : StepNote -> StepNote) (key : Z) (i : nat)
  (notes : list StepNote) (sn : StepNote) :
  findNote key notes = Some i ->
  In sn notes -> note_key sn <> key ->
  In sn (updateNote f i notes).
Proof.
  revert i. induction notes as [| a rest IH]; cbn; [tauto |].
  intros i Hfind Hin Hne.
  destruct (Z.eqb_spec (m_key (m_note a)) key) as [Heq | Hneq].
  - injection Hfind as <-. cbn.
    destruct Hin as [-> | Hin]; [contradiction | right; exact Hin].
  - destruct (findNote key rest) as [j |]; [| discriminate].
    injection Hfind as <-. cbn.
    destruct Hin as [-> | Hin]; [left; reflexivity |].
    right. exact (IH j eq_refl Hin Hne).
Qed.

(** X23.  A step is only closed when the last key goes up: while a note
    with another key is still pressed, releasing a key leaves the
    pattern, the step in progress, the start position and the current
    length untouched, and drops no note. *)
Theorem noteReleased_waits_for_held_keys (n : Note) (s : t) (held : StepNote) :
  In held (m_curStepNotes s) ->
  isPressed held = true ->
  m_key (m_note held) <> m_key n ->
  let s' := noteReleased n s in
  m_pattern s' = m_pattern s /\
  m_isStepInProgress s' = m_isStepInProgress s /\
  m_curStepStartPos s' = m_curStepStartPos s /\
  m_curStepLength s' = m_curStepLength s /\
  keys s' = keys s /\
  In held (m_curStepNotes s').
Proof.
  intros Hin Hp Hne s'. subst s'. unfold noteReleased, findCurStepNote.
  destruct (findNote (m_key n) (m_curStepNotes s)) as [i |] eqn:Hfind;
    [| repeat split; assumption].
  destruct (nth_error (m_curStepNotes s) i) as [sn |];
    [| repeat split; assumption].
  destruct (isPressed sn); [| repeat split; assumption].
  pose proof (updateNote_other_key setReleased _ _ _ _ Hfind Hin Hne) as Hin'.
  assert (Hall : forall tm,
             allCurStepNotesReleased
               (set_timer tm
                  (set_curStepNotes
                     (updateNote setReleased i (m_curStepNotes s)) s))
             = false).
  { intros tm. unfold allCurStepNotesReleased. cbn.
    exact (allReleased_false _ _ Hin' Hp). }
  assert (Hall' :
             allCurStepNotesReleased
               (set_curStepNotes
                  (updateNote setReleased i (m_curStepNotes s)) s)
             = false).
  { unfold allCurStepNotesReleased. cbn.
    exact (allReleased_false _ _ Hin' Hp). }
  cbn. destruct (m_updateReleasedTimer s); rewrite ?Hall, ?Hall'; cbn;
    unfold keys; cbn; rewrite keys_updateNote by reflexivity;
    repeat split; assumption.
Qed.

Lemma noteReleased_waits_for_held_keys_witness :
  let c := mkNote 0 0 60 100 0 in
  let e := mkNote 0 0 64 100 0 in
  let s := notePressed e (notePressed c (idle 48)) in
  let s' := noteReleased c s in
  m_pattern s' = m_pattern s /\
  m_isStepInProgress s' = m_isStepInProgress s /\
  m_curStepStartPos s' = m_curStepStartPos s /\
  m_curStepLength s' = m_curStepLength s /\
  keys s' = keys s /\
  In (mkStepNote (mkNote 48 0 64 100 0) true) (m_curStepNotes s').
Proof.
  apply (noteReleased_waits_for_held_keys (mkNote 0 0 60 100 0)
           (notePressed (mkNote 0 0 64 100 0)
              (notePressed (mkNote 0 0 60 100 0) (idle 48)))
           (mkStepNote (mkNote 48 0 64 100 0) true)).
  - simpl. right. left. reflexivity.
  - reflexivity.
  - simpl. lia.
Defined.

(** *** Released notes that were not pressed again *)

#[local] Arguments Z.sub : simpl never.
#[local] Arguments Z.min : simpl never.

Lemma sweepReleased_timeout (tsr : StepNote -> Z) (notes : list StepNote)
  (nt : Z) (nr : bool) :
  let nt' := snd (fst (sweepReleased tsr notes nt nr)) in
  (nt' = nt \/
   exists sn, In sn (filter (keptNote tsr) notes) /\
              isReleased sn = true /\
              nt' = REMOVE_RELEASED_NOTE_TIME_THRESHOLD_MS - tsr sn) /\
  nt' <= nt /\
  (forall sn, In sn (filter (keptNote tsr) notes) -> isReleased sn = true ->
              nt' <= REMOVE_RELEASED_NOTE_TIME_THRESHOLD_MS - tsr sn).
Proof.
  unfold keptNote, isReleased, isPressed.
  revert nt nr. induction notes as [| a rest IH]; intros nt nr; cbn.
  { repeat split; [left; reflexivity | lia | intros sn []]. }
  unfold isReleased, isPressed.
  destruct (m_pressed a) eqn:Hpa; cbn.
  - specialize (IH nt nr). cbv zeta in IH.
    destruct (sweepReleased tsr rest nt nr) as [[kept nt'] nr']; cbn in *.
    destruct IH as (Hor & Hle & Hall). repeat split.
    + destruct Hor as [-> | (sn & Hin & Hrel & ->)];
        [left; reflexivity |].
      right. exists sn.
      split; [right; exact Hin | split; [exact Hrel | reflexivity]].
    + exact Hle.
    + intros sn [<- | Hin] Hrel; [| exact (Hall sn Hin Hrel)].
      rewrite Hpa in Hrel. discriminate.
  - destruct (Z.geb_spec (tsr a) REMOVE_RELEASED_NOTE_TIME_THRESHOLD_MS),
             (Z.ltb_spec (tsr a) REMOVE_RELEASED_NOTE_TIME_THRESHOLD_MS);
      try lia.
    + apply IH.
    + specialize (IH (Z.min nt (REMOVE_RELEASED_NOTE_TIME_THRESHOLD_MS - tsr a))
                     nr). cbv zeta in IH.
      destruct (sweepReleased tsr rest _ nr) as [[kept nt'] nr']; cbn in *.
      destruct IH as (Hor & Hle & Hall). repeat split.
      * destruct Hor as [Heq | (sn & Hin & Hrel & ->)];
          [| right; exists sn;
             split; [right; exact Hin | split; [exact Hrel | reflexivity]]].
        destruct (Z.min_spec nt (REMOVE_RELEASED_NOTE_TIME_THRESHOLD_MS - tsr a))
          as [[_ Hm] | [_ Hm]]; rewrite Hm in Heq.
        -- left. exact Heq.
        -- right. exists a.
           split; [left; reflexivity | split; [| exact Heq]].
           rewrite Hpa. reflexivity.
      * lia.
      * intros sn [<- | Hin] Hrel; [lia | exact (Hall sn Hin Hrel)].
Qed.

(** X24.  [removeNotesReleasedForTooLong], with clock readings that
    are not negative: the notes kept are exactly the pressed ones and
    the ones released for less than 70 ms, in their order; the timer
    is stopped when no released note is left, and is otherwise set to
    the time after which the first of them reaches 70 ms, a value
    from 1 to 70. *)
Theorem removeNotesReleasedForTooLong_sweeps
  (timeSinceReleased : StepNote -> Z) (s : t) :
  (forall sn, In sn (m_curStepNotes s) -> 0 <= timeSinceReleased sn) ->
  let s' := removeNotesReleasedForTooLong timeSinceReleased s in
  m_curStepNotes s'
  = filter (keptNote timeSinceReleased) (m_curStepNotes s) /\
  match m_updateReleasedTimer s' with
  | None => forall sn, In sn (m_curStepNotes s') -> isPressed sn = true
  | Some d =>
      1 <= d <= 70 /\
      (exists sn, In sn (m_curStepNotes s') /\ isReleased sn = true /\
                  d = 70 - timeSinceReleased sn) /\
      (forall sn, In sn (m_curStepNotes s') -> isReleased sn = true ->
                  d <= 70 - timeSinceReleased sn)
  end.
Proof.
  intros Htime s'. subst s'. unfold removeNotesReleasedForTooLong.
  pose proof (sweepReleased_kept timeSinceReleased (m_curStepNotes s)
                INT_MAX false) as Hk.
  pose proof (sweepReleased_timeout timeSinceReleased (m_curStepNotes s)
                INT_MAX false) as Ht. cbv zeta in Ht.
  destruct (sweepReleased timeSinceReleased (m_curStepNotes s) INT_MAX false)
    as [[kept nt] nr]; cbn in Hk, Ht. subst kept.
  destruct Ht as (Hor & Hle & Hall).
  assert (Hbound : forall sn,
             In sn (filter (keptNote timeSinceReleased) (m_curStepNotes s)) ->
             isReleased sn = true ->
             1 <= 70 - timeSinceReleased sn <= 70).
  { intros sn Hin Hrel. apply filter_In in Hin. destruct Hin as [Hin Hkept].
    pose proof (Htime sn Hin). unfold keptNote, isPressed in Hkept.
    unfold isReleased in Hrel. apply negb_true_iff in Hrel.
    rewrite Hrel in Hkept. cbn in Hkept. apply Z.ltb_lt in Hkept.
    unfold REMOVE_RELEASED_NOTE_TIME_THRESHOLD_MS in Hkept. lia. }
  change REMOVE_RELEASED_NOTE_TIME_THRESHOLD_MS with 70 in *.
  destruct (Z.eqb_spec nt INT_MAX) as [Heq | Hne]; cbn.
  - split; [reflexivity |]. intros sn Hin.
    destruct (isPressed sn) eqn:Hp; [reflexivity | exfalso].
    assert (Hrel : isReleased sn = true)
      by (unfold isReleased, isPressed in *; rewrite Hp; reflexivity).
    pose proof (Hall sn Hin Hrel). pose proof (Hbound sn Hin Hrel).
    unfold INT_MAX in Heq. lia.
  - split; [reflexivity |].
    destruct Hor as [Heq | (sn & Hin & Hrel & Heq)]; [contradiction |].
    pose proof (Hbound sn Hin Hrel).
    split; [lia |]. split; [exists sn; auto | exact Hall].
Qed.

Lemma removeNotesReleasedForTooLong_sweeps_witness :
  let tsr := fun sn : StepNote => if note_key sn =? 60 then 80 else 25 in
  let s := set_curStepNotes
             [mkStepNote (mkNote 48 0 60 100 0) false;
              mkStepNote (mkNote 48 0 64 100 0) false;
              mkStepNote (mkNote 48 0 67 100 0) true] (idle 48) in
  let s' := removeNotesReleasedForTooLong tsr s in
  m_curStepNotes s' = filter (keptNote tsr) (m_curStepNotes s) /\
  match m_updateReleasedTimer s' with
  | None => forall sn, In sn (m_curStepNotes s') -> isPressed sn = true
  | Some d =>
      1 <= d <= 70 /\
      (exists sn, In sn (m_curStepNotes s') /\ isReleased sn = true /\
                  d = 70 - tsr sn) /\
      (forall sn, In sn (m_curStepNotes s') -> isReleased sn = true ->
                  d <= 70 - tsr sn)
  end.
Proof.
  apply (removeNotesReleasedForTooLong_sweeps
           (fun sn : StepNote => if note_key sn =? 60 then 80 else 25)).
  intros sn _. destruct (note_key sn =? 60); lia.
Defined.

End StepRecorderProperties.

(** * The plugin browser and the vector graph *)

(** X25.  The logo of a plugin entry is between 16 and 48 pixels wide
    whatever the height of the widget: 16 up to a height of 24, 48
    from a height of 60 on, and never smaller for a taller widget. *)
Theorem logo_side_range (h1 h2 : Z) :
  (16 <= logo_side h1 <= 48)%Z /\
  ((h1 <= 24)%Z -> logo_side h1 = 16%Z) /\
  ((60 <= h1)%Z -> logo_side h1 = 48%Z) /\
  ((h1 <= h2)%Z -> (logo_side h1 <= logo_side h2)%Z).
Proof.
  unfold logo_side, tLimit. change (60 - 24)%Z with 36%Z.
  assert (Hq : forall a, (0 <= a <= 36)%Z ->
                 (0 <= Z.quot (32 * a) 36 <= 32)%Z /\
                 (a = 0%Z -> Z.quot (32 * a) 36 = 0%Z) /\
                 (a = 36%Z -> Z.quot (32 * a) 36 = 32%Z)).
  { intros a Ha. repeat split.
    - apply Z.quot_pos; lia.
    - apply Z.quot_le_upper_bound; lia.
    - intros ->. reflexivity.
    - intros ->. reflexivity. }
  assert (Hm : forall a b, (a <= b)%Z ->
                 (Z.quot (32 * a) 36 <= Z.quot (32 * b) 36)%Z)
    by (intros a b Hab; apply Z.quot_le_mono; lia).
  pose proof (Hq (Z.max 24 (Z.min h1 60) - 24)%Z) as H1.
  repeat split.
  - lia.
  - lia.
  - intros Hh. replace (Z.max 24 (Z.min h1 60) - 24)%Z with 0%Z by lia.
    reflexivity.
  - intros Hh. replace (Z.max 24 (Z.min h1 60) - 24)%Z with 36%Z by lia.
    reflexivity.
  - intros Hh. apply Z.add_le_mono_l. apply Hm. lia.
Qed.

Section VectorGraphProperties.
Import VectorGraph.

Lemma at_index_nth_error {A : Type} (l : list A) (i : nat) :
  at_index l (Z.of_nat i) = nth_error l i.
Proof.
  unfold at_index. destruct (Z.ltb_spec (Z.of_nat i) 0); [lia |].
  rewrite Nat2Z.id. reflexivity.
Qed.

Lemma nth_error_setPoint (points : list VectorGraphPoint)
  (k i : nat) (p : VectorGraphPoint) :
  (k < length points)%nat ->
  nth_error (setPoint k p points) i
  = if Nat.eqb i k then Some p else nth_error points i.
Proof.
  revert k i. induction points as [| q rest IH]; intros k i Hk; cbn in Hk.
  - lia.
  - destruct k as [| k']; destruct i as [| i']; cbn; try reflexivity.
    apply IH. lia.
Qed.

Lemma length_setPoint (points : list VectorGraphPoint) (k : nat)
  (p : VectorGraphPoint) :
  length (setPoint k p points) = length points.
Proof.
  revert k. induction points as [| q rest IH]; intros [| k]; cbn;
    rewrite ?IH; reflexivity.
Qed.

(** Replacing a point by one whose [x] lies between its neighbours
    keeps the order. *)
Lemma ordered_setPoint (points : list VectorGraphPoint) (k : nat)
  (p : VectorGraphPoint) :
  ordered points ->
  (k < length points)%nat ->
  (forall l, nth_error points (pred k) = Some l -> (0 < k)%nat ->
             m_x l <= m_x p) ->
  (forall r, nth_error points (S k) = Some r -> m_x p <= m_x r) ->
  ordered (setPoint k p points).
Proof.
  intros Hord Hk Hleft Hright i a b Ha Hb.
  rewrite nth_error_setPoint in Ha, Hb by assumption.
  destruct (Nat.eqb_spec i k) as [Hik | Hik];
    destruct (Nat.eqb_spec (S i) k) as [Hsk | Hsk]; try lia.
  - injection Ha as <-. subst i. apply Hright. exact Hb.
  - injection Hb as <-. subst k. apply (Hleft a); [exact Ha | lia].
  - exact (Hord i a b Ha Hb).
Qed.

#[local] Arguments nth_error : simpl never.

(** X26.  Dragging a point that has a left neighbour keeps the graph
    well formed: only that point changes, the points stay in the order
    of their x, a locked coordinate is not touched, and a free y ends
    up between 0 and 1 (it is y itself when y already lies there). *)
Theorem tryMove_keeps_order (index : Z) (x y : R)
  (points : list VectorGraphPoint) (cur : VectorGraphPoint) :
  ordered points ->
  (0 < index < Z.of_nat (length points))%Z ->
  getPoint points index = Some cur ->
  exists cur',
    tryMove index x y points
    = Some (setPoint (Z.to_nat index) cur' points) /\
    ordered (setPoint (Z.to_nat index) cur' points) /\
    (isXLocked cur = true -> m_x cur' = m_x cur) /\
    (isYLocked cur = true -> m_y cur' = m_y cur) /\
    (isYLocked cur = false ->
     0 <= m_y cur' <= 1 /\ (0 <= y <= 1 -> m_y cur' = y)).
Proof.
  intros Hord Hidx Hcur.
  set (k := Z.to_nat index).
  assert (Hk : index = Z.of_nat k) by (subst k; lia).
  assert (Hklen : (0 < k < length points)%nat) by lia.
  assert (Hcur' : nth_error points k = Some cur).
  { unfold getPoint in Hcur. rewrite Hk, at_index_nth_error in Hcur.
    exact Hcur. }
  destruct (nth_error points (pred k)) as [left |] eqn:Hleft;
    [| apply nth_error_None in Hleft; lia].
  assert (Hl : getPoint points (index - 1) = Some left).
  { unfold getPoint. replace (index - 1)%Z with (Z.of_nat (pred k)) by lia.
    rewrite at_index_nth_error. exact Hleft. }
  assert (Hlc : m_x left <= m_x cur).
  { apply (Hord (pred k) left cur Hleft).
    replace (S (pred k)) with k by lia. exact Hcur'. }
  assert (Hr : getPoint points (index + 1) = nth_error points (S k)).
  { unfold getPoint. replace (index + 1)%Z with (Z.of_nat (S k)) by lia.
    apply at_index_nth_error. }
  (* the y coordinate, whatever the x coordinate became *)
  assert (Hy : forall p : VectorGraphPoint,
             isYLocked p = isYLocked cur -> m_y p = m_y cur ->
             exists p',
               (if negb (isYLocked p)
                then if Rgt_dec y 1 then setY 1 p
                     else if Rlt_dec y 0 then setY 0 p else setY y p
                else p) = p' /\
               m_x p' = m_x p /\
               (isYLocked cur = true -> m_y p' = m_y cur) /\
               (isYLocked cur = false ->
                0 <= m_y p' <= 1 /\ (0 <= y <= 1 -> m_y p' = y))).
  { intros p Hlock Hmy. eexists. split; [reflexivity |].
    rewrite Hlock. destruct (isYLocked cur); cbn.
    - split; [reflexivity | split; [intros _; exact Hmy | discriminate]].
    - destruct (Rgt_dec y 1); [| destruct (Rlt_dec y 0)]; cbn;
        (split; [reflexivity | split; [discriminate |]]);
        intros _; split; try lra; intros; lra. }
  (* the x coordinate *)
  assert (Hx : exists p,
             (if negb (isXLocked cur) then
                match getPoint points (index - 1) with
                | None => None
                | Some leftPoint =>
                    match
                      (if negb (index + 1 =? Z.of_nat (length points))%Z
                       then option_map Some (getPoint points (index + 1))
                       else Some None)
                    with
                    | None => None
                    | Some rightPoint =>
                        if Rlt_dec x (m_x leftPoint)
                        then Some (setX (m_x leftPoint) cur)
                        else
                          match rightPoint with
                          | Some rightPoint =>
                              if Rgt_dec x (m_x rightPoint)
                              then Some (setX (m_x rightPoint) cur)
                              else Some (setX x cur)
                          | None => Some (setX x cur)
                          end
                    end
                end
              else Some cur) = Some p /\
             isYLocked p = isYLocked cur /\ m_y p = m_y cur /\
             m_x left <= m_x p /\
             (forall r, nth_error points (S k) = Some r -> m_x p <= m_x r) /\
             (isXLocked cur = true -> m_x p = m_x cur)).
  { assert (Hcr : forall r, nth_error points (S k) = Some r ->
                            m_x cur <= m_x r)
      by (intros r Hnr; exact (Hord k cur r Hcur' Hnr)).
    destruct (isXLocked cur) eqn:Hxl; cbn.
    { exists cur. repeat split; auto. }
    rewrite Hl, Hr.
    destruct (Z.eqb_spec (index + 1) (Z.of_nat (length points))) as [He | Hne];
      cbn.
    - assert (Hnone : nth_error points (S k) = None)
        by (apply nth_error_None; lia).
      destruct (Rlt_dec x (m_x left)) as [Hlt | Hnlt]; eexists;
        (split; [reflexivity |]); cbn; repeat split;
        try lra; try discriminate;
        intros r' Hnr; rewrite Hnone in Hnr; discriminate.
    - destruct (nth_error points (S k)) as [right |] eqn:Hright;
        [| apply nth_error_None in Hright; lia].
      pose proof (Hcr right eq_refl) as Hcr'. cbn.
      destruct (Rlt_dec x (m_x left)) as [Hlt | Hnlt];
        [| destruct (Rgt_dec x (m_x right)) as [Hgt | Hngt]];
        eexists; (split; [reflexivity |]); cbn; repeat split;
        try lra; try discriminate;
        intros r' [= <-]; lra. }
  destruct Hx as (p & Hxeq & Hpl & Hpy & Hlp & Hpr & Hpx).
  destruct (Hy p Hpl Hpy) as (p' & Hyeq & Hpx' & Hlocked & Hfree).
  exists p'. split; [| split; [| split; [| split]]].
  - unfold tryMove. rewrite Hcur. cbv zeta. rewrite Hxeq, Hyeq. reflexivity.
  - apply ordered_setPoint; try assumption; try lia.
    + intros l Hl' _. rewrite Hleft in Hl'. injection Hl' as <-.
      rewrite Hpx'. exact Hlp.
    + intros r Hnr. rewrite Hpx'. exact (Hpr r Hnr).
  - intros Hlx. rewrite Hpx'. exact (Hpx Hlx).
  - exact Hlocked.
  - exact Hfree.
Qed.

Lemma three_points_ordered : ordered three_points.
Proof.
  intros i p q. unfold three_points.
  destruct i as [| [| [| i]]]; cbv [nth_error];
    try discriminate; intros [= <-] [= <-]; cbn; lra.
Qed.

Lemma tryMove_keeps_order_witness :
  exists cur',
    tryMove 1 2 (-1) three_points
    = Some (setPoint (Z.to_nat 1) cur' three_points) /\
    ordered (setPoint (Z.to_nat 1) cur' three_points) /\
    (isXLocked (mkPoint 0.5 0.5 0 SingleCurve false false false false) = true
     -> m_x cur' = 0.5) /\
    (isYLocked (mkPoint 0.5 0.5 0 SingleCurve false false false false) = true
     -> m_y cur' = 0.5) /\
    (isYLocked (mkPoint 0.5 0.5 0 SingleCurve false false false false) = false
     -> 0 <= m_y cur' <= 1 /\ (0 <= -1 <= 1 -> m_y cur' = -1)).
Proof.
  apply (tryMove_keeps_order 1 2 (-1) three_points
           (mkPoint 0.5 0.5 0 SingleCurve false false false false)).
  - exact three_points_ordered.
  - simpl. lia.
  - reflexivity.
Defined.

(** X27.  The first point can only be moved because its x is locked:
    on a first point with a free x, [tryMove] reads the point before
    the list; on one with a locked x it changes at most the y, to a
    value between 0 and 1. *)
Theorem tryMove_first_point (x y : R) (p0 : VectorGraphPoint)
  (rest : list VectorGraphPoint) :
  (isXLocked p0 = false -> tryMove 0 x y (p0 :: rest) = None) /\
  (isXLocked p0 = true ->
   exists p', tryMove 0 x y (p0 :: rest) = Some (p' :: rest) /\
              m_x p' = m_x p0 /\
              (isYLocked p0 = true -> p' = p0) /\
              (isYLocked p0 = false -> 0 <= m_y p' <= 1)).
Proof.
  unfold tryMove, getPoint, at_index. cbn. cbv [nth_error].
  split; intros Hx; rewrite Hx; cbn; [reflexivity |].
  destruct (isYLocked p0); cbn.
  - exists p0. repeat split; try reflexivity; discriminate.
  - destruct (Rgt_dec y 1); [| destruct (Rlt_dec y 0)]; eexists;
      (split; [reflexivity |]); cbn;
      (split; [reflexivity | split; [discriminate | intros _; lra]]).
Qed.

Lemma tryMove_first_point_witness :
  tryMove 0 0.2 0.3
    (mkPoint 0 0 0 SingleCurve false false false false :: []) = None.
Proof.
  apply (proj1 (tryMove_first_point 0.2 0.3
                  (mkPoint 0 0 0 SingleCurve false false false false) [])).
  reflexivity.
Defined.

(** *** The section of an input *)

Section SectionStartProperties.
Variable floatEqual : R -> R -> R -> bool.

Lemma scanSections_spec (points : list VectorGraphPoint) (i : Z) (input : R) :
  (scanSections floatEqual points i input = (-1)%Z /\
   Forall (fun p => ~ stops floatEqual input p) points) \/
  (exists (k : nat) (p : VectorGraphPoint),
     scanSections floatEqual points i input = (i - 1 + Z.of_nat k)%Z /\
     nth_error points k = Some p /\
     stops floatEqual input p /\
     Forall (fun p => ~ stops floatEqual input p) (firstn k points)).
Proof.
  revert i. induction points as [| p rest IH]; intros i; cbn.
  { left. split; [reflexivity | constructor]. }
  destruct (Rgt_dec (m_x p) input) as [Hgt | Hngt]; cbn.
  { right. exists O, p. repeat split; [cbn; lia | left; lra | constructor]. }
  destruct (floatEqual (m_x p) input 0.000001) eqn:Hfe.
  { right. exists O, p. repeat split; [cbn; lia | right; exact Hfe | constructor]. }
  assert (Hns : ~ stops floatEqual input p).
  { intros [H | H]; [lra | congruence]. }
  destruct (IH (i + 1)%Z) as [[Hr Hall] | (k & q & Hr & Hq & Hs & Hall)].
  - left. split; [exact Hr | constructor; assumption].
  - right. exists (S k), q. repeat split; try assumption.
    + rewrite Hr. lia.
    + cbn. constructor; assumption.
Qed.

(** X28.  [getSectionStartIndex] returns the section whose end point is
    the first point, from index 1 on, that lies right of the input or
    is [floatEqual] to it: -1 for no points, 0 for a single point,
    otherwise either an index r with 0 <= r and r + 1 inside the list,
    or -1 when no point from index 1 on stops the search.  When some
    point from index 1 on lies right of the input the result is never
    -1, so that both points read by [calculateSample] exist. *)
Theorem getSectionStartIndex_finds_section
  (points : list VectorGraphPoint) (input : R) :
  let r := getSectionStartIndex floatEqual points input in
  (points = [] -> r = (-1)%Z) /\
  (length points = 1%nat -> r = 0%Z) /\
  ((2 <= length points)%nat ->
   (r = (-1)%Z /\
    forall j p, (1 <= j)%nat -> nth_error points j = Some p ->
                ~ stops floatEqual input p) \/
   ((0 <= r)%Z /\ (r + 1 < Z.of_nat (length points))%Z /\
    exists p, getPoint points (r + 1) = Some p /\ stops floatEqual input p /\
              forall j q, (1 <= j <= Z.to_nat r)%nat ->
                          nth_error points j = Some q ->
                          ~ stops floatEqual input q)) /\
  (forall j p, (1 <= j)%nat -> nth_error points j = Some p ->
               input < m_x p ->
               (0 <= r)%Z /\ (r + 1 < Z.of_nat (length points))%Z).
Proof.
  intros r.
  assert (Hmain : (2 <= length points)%nat ->
    (r = (-1)%Z /\
     forall j p, (1 <= j)%nat -> nth_error points j = Some p ->
                 ~ stops floatEqual input p) \/
    ((0 <= r)%Z /\ (r + 1 < Z.of_nat (length points))%Z /\
     exists p, getPoint points (r + 1) = Some p /\ stops floatEqual input p /\
               forall j q, (1 <= j <= Z.to_nat r)%nat ->
                           nth_error points j = Some q ->
                           ~ stops floatEqual input q)).
  { intros Hlen. subst r.
    destruct points as [| p0 [| p1 rest]]; cbn in Hlen; try lia.
    change (getSectionStartIndex floatEqual (p0 :: p1 :: rest) input)
      with (scanSections floatEqual (p1 :: rest) 1 input).
    destruct (scanSections_spec (p1 :: rest) 1 input)
      as [[Hr Hall] | (k & p & Hr & Hp & Hs & Hall)]; rewrite Hr.
    - left. split; [reflexivity |].
      intros [| j] q Hj Hq; [lia |].
      change (nth_error (p1 :: rest) j = Some q) in Hq.
      rewrite Forall_forall in Hall. apply Hall.
      exact (nth_error_In _ _ Hq).
    - right.
      assert (Hk : (k < length (p1 :: rest))%nat)
        by (apply nth_error_Some; rewrite Hp; discriminate).
      cbn [length] in *.
      split; [lia |]. split; [lia |].
      exists p. split; [| split; [exact Hs |]].
      + unfold getPoint.
        replace (1 - 1 + Z.of_nat k + 1)%Z with (Z.of_nat (S k)) by lia.
        rewrite at_index_nth_error. exact Hp.
      + intros [| j] q Hj Hq; [lia |].
        change (nth_error (p1 :: rest) j = Some q) in Hq.
        rewrite Forall_forall in Hall. apply Hall.
        apply (nth_error_In _ j).
        rewrite nth_error_firstn.
        destruct (Nat.ltb_spec j k); [exact Hq | lia]. }
  split; [intros ->; reflexivity |].
  split.
  { intros Hlen. subst r. destruct points as [| p0 [| p1 rest]];
      cbn in Hlen; try lia. reflexivity. }
  split; [exact Hmain |].
  intros j p Hj Hp Hright.
  assert (Hlen : (2 <= length points)%nat).
  { assert (j < length points)%nat
      by (apply nth_error_Some; rewrite Hp; discriminate). lia. }
  destruct (Hmain Hlen) as [[_ Hnone] | (H0 & H1 & _)]; [| lia].
  exfalso. apply (Hnone j p Hj Hp). left. exact Hright.
Qed.

End SectionStartProperties.

Lemma getSectionStartIndex_finds_section_witness :
  (0 <= getSectionStartIndex floatEqual_abs three_points 0.7)%Z /\
  (getSectionStartIndex floatEqual_abs three_points 0.7 + 1
   < Z.of_nat (length three_points))%Z.
Proof.
  pose proof (getSectionStartIndex_finds_section floatEqual_abs
                three_points 0.7) as H.
  cbv zeta in H. destruct H as (_ & _ & _ & H).
  apply (H 2%nat (mkPoint 1 1 0 SingleCurve false false true false)).
  - lia.
  - reflexivity.
  - simpl. lra.
Defined.

End VectorGraphProperties.
